(** * Smpl front end: the tokenizer and the recursive-descent parser of
      [interpreter.py], embedded as executable Rocq functions.

    Modelling scope.  Python [str] values are represented by [string]; a
    character of type [ascii] stands for the code point of the same number
    (U+0000 to U+00FF), and the character classes below are the ones
    Python's [re] and [str.strip] use on that range.  The mutable
    attributes [Tokenizer.inp] and [Parser.tokens] are threaded explicitly
    through the functions that update them.  The interpreter's recursion
    limit, which ends a descent that nests too deep with [RecursionError],
    is modelled by the room each method of the parser has for further
    nested activations. *)

From Stdlib Require Import String Ascii List Bool Arith ZArith Lia.
Import ListNotations.
Open Scope string_scope.

(** ** Python runtime: exceptions, outcomes, string slicing *)

(** [RecursionError] is what the interpreter raises when a call would
    exceed its recursion limit; its message is not modelled. *)
Inductive exn : Type :=
| RuntimeError (msg : string)
| IndexError (msg : string)
| ValueError (msg : string)
| RecursionError.

(** The result of running a method: it returns, it raises, or a loop of
    the model was given too few rounds. *)
Inductive outcome (A : Type) : Type :=
| Return (a : A)
| Raise (e : exn)
| OutOfFuel.

Arguments Return {A} a.
Arguments Raise {A} e.
Arguments OutOfFuel {A}.

Fixpoint drop (n : nat) (s : string) : string :=
  match n, s with
  | O, _ => s
  | S _, EmptyString => EmptyString
  | S n', String _ s' => drop n' s'
  end.

Fixpoint take (n : nat) (s : string) : string :=
  match n, s with
  | O, _ => EmptyString
  | S _, EmptyString => EmptyString
  | S n', String c s' => String c (take n' s')
  end.

(** [s[st:en]] and [s[st:]] for non-negative indices. *)
Definition slice (st en : nat) (s : string) : string := take (en - st) (drop st s).
Definition slice_from (st : nat) (s : string) : string := drop st s.

Definition code_in (ranges : list (nat * nat)) (c : ascii) : bool :=
  let n := nat_of_ascii c in
  existsb (fun r => Nat.leb (fst r) n && Nat.leb n (snd r)) ranges.

(** [str.isspace] on U+0000..U+00FF: what [str.strip()] removes. *)
Definition is_space : ascii -> bool :=
  code_in [(9, 13); (28, 32); (133, 133); (160, 160)].

(** [\w] of a [str] pattern on U+0000..U+00FF: alphanumerics and [_]. *)
Definition is_word : ascii -> bool :=
  code_in [(48, 57); (65, 90); (95, 95); (97, 122); (170, 170); (178, 179);
           (181, 181); (185, 186); (188, 190); (192, 214); (216, 246);
           (248, 255)].

(** [\d] of a [str] pattern on U+0000..U+00FF. *)
Definition is_digit : ascii -> bool := code_in [(48, 57)].

(** [[a-zA-Z]]. *)
Definition is_letter : ascii -> bool := code_in [(65, 90); (97, 122)].

Fixpoint lstrip (s : string) : string :=
  match s with
  | EmptyString => EmptyString
  | String c s' => if is_space c then lstrip s' else s
  end.

Fixpoint rstrip (s : string) : string :=
  match s with
  | EmptyString => EmptyString
  | String c s' =>
      match rstrip s' with
      | EmptyString => if is_space c then EmptyString else String c EmptyString
      | r => String c r
      end
  end.

(** [s.strip()]. *)
Definition strip (s : string) : string := rstrip (lstrip s).

(** [sep.join(parts)]. *)
Fixpoint join (sep : string) (parts : list string) : string :=
  match parts with
  | [] => EmptyString
  | [p] => p
  | p :: rest => p ++ sep ++ join sep rest
  end.

(** ** The fragment of [re] the token table uses

    A pattern is a sequence of atoms: the word boundary [\b], a literal
    character, and [cls+] for a character class.  [match_atoms] is the
    backtracking matcher anchored at the current position, as [re.match]
    is; [prev] is the character before the position, if any.  It returns
    the number of characters matched. *)

Module Re.

Inductive atom : Type :=
| Boundary
| Lit (c : ascii)
| Plus (cls : ascii -> bool).

Definition pattern : Type := list atom.

Definition word_before (prev : option ascii) : bool :=
  match prev with
  | Some c => is_word c
  | None => false
  end.

Definition word_after (s : string) : bool :=
  match s with
  | String c _ => is_word c
  | EmptyString => false
  end.

(** [\b] holds where exactly one side is a word character. *)
Definition at_boundary (prev : option ascii) (s : string) : bool :=
  xorb (word_before prev) (word_after s).

(** Greedy [cls+] followed by the continuation [k]: take as many
    characters as possible, giving one back at a time while [k] fails. *)
Fixpoint match_plus (cls : ascii -> bool)
    (k : option ascii -> string -> option nat) (s : string) : option nat :=
  match s with
  | EmptyString => None
  | String c s' =>
      if cls c then
        match match_plus cls k s' with
        | Some n => Some (S n)
        | None => option_map S (k (Some c) s')
        end
      else None
  end.

Fixpoint match_atoms (p : pattern) (prev : option ascii) (s : string)
    : option nat :=
  match p with
  | [] => Some 0
  | Boundary :: p' =>
      if at_boundary prev s then match_atoms p' prev s else None
  | Lit c :: p' =>
      match s with
      | String x s' =>
          if Ascii.eqb x c then option_map S (match_atoms p' (Some x) s')
          else None
      | EmptyString => None
      end
  | Plus cls :: p' => match_plus cls (match_atoms p') s
  end.

(** [re.match(rgx, s)]: [None], or the span of the match. *)
Definition re_match (rgx : pattern) (s : string) : option (nat * nat) :=
  option_map (fun en => (0, en)) (match_atoms rgx None s).

End Re.

(** ** Tokens and the tokenizer *)

Record Token : Type := mkToken { type : string; val : string }.

Module Tokenizer.

Import Re.

(** The rule table, in the order the scanner tries it. *)
Definition TOKEN_TYPES : list (string * pattern) :=
  [ ("_def", [Boundary; Lit "d"; Lit "e"; Lit "f"; Boundary]);
    ("_end", [Boundary; Lit "e"; Lit "n"; Lit "d"]);
    ("_identifier", [Boundary; Plus is_letter; Boundary]);
    ("_integer", [Boundary; Plus is_digit; Boundary]);
    ("_oparen", [Lit "("]);
    ("_cparen", [Lit ")"]);
    ("_comma", [Lit ","]) ].

(** The [for] loop of [get_one_token] over the rules that are left. *)
Fixpoint scan_rules (rules : list (string * pattern)) (inp : string)
    : outcome (Token * string) :=
  match rules with
  | [] => Raise (RuntimeError ("Unexpected token at: " ++ inp))
  | (token_type, rgx) :: rules' =>
      match re_match rgx inp with
      | Some (st, en) =>
          let val := slice st en inp in
          Return (mkToken token_type val, slice_from en inp)
      | None => scan_rules rules' inp
      end
  end.

(** Returns the token and the new value of [self.inp]. *)
Definition get_one_token (inp : string) : outcome (Token * string) :=
  scan_rules TOKEN_TYPES inp.

(** The [while self.inp] loop; [tokens] is the deque built so far. *)
Fixpoint get_tokens_loop (fuel : nat) (tokens : list Token) (inp : string)
    : outcome (list Token) :=
  match inp with
  | EmptyString => Return tokens
  | String _ _ =>
      match fuel with
      | O => OutOfFuel
      | S fuel' =>
          match get_one_token inp with
          | Return (tok, inp') =>
              get_tokens_loop fuel' (tokens ++ [tok]) (strip inp')
          | Raise e => Raise e
          | OutOfFuel => OutOfFuel
          end
      end
  end.

(** One iteration removes at least one character, so [length inp]
    iterations are enough (see [get_tokens_loop_fuel]). *)
Definition get_tokens (inp : string) : outcome (list Token) :=
  get_tokens_loop (String.length inp) [] inp.

End Tokenizer.

(** ** The syntax tree *)

#[warnings="-register-all"]
Inductive Node : Type :=
| IntegerNode (val : Z)
| VarRefNode (val : string)
| DefNode (name : string) (body : Node) (args : list string)
| CallNode (name : string) (args : list Node).

(** ** The parser

    A method of [Parser] is a function from the current [self.tokens] to
    its outcome and the deque it leaves behind. *)

Definition M (A : Type) : Type := list Token -> outcome (A * list Token).

Definition ret {A} (a : A) : M A := fun tokens => Return (a, tokens).

Definition bind {A B} (m : M A) (k : A -> M B) : M B :=
  fun tokens =>
    match m tokens with
    | Return (a, tokens') => k a tokens'
    | Raise e => Raise e
    | OutOfFuel => OutOfFuel
    end.

Definition raise {A} (e : exn) : M A := fun _ => Raise e.

Definition out_of_fuel {A} : M A := fun _ => OutOfFuel.

(** A bound on the rounds of a [while] loop that starts on the current
    deque: every round of the parser's loops pops a token. *)
Definition rounds_left : M nat :=
  fun tokens => Return (S (List.length tokens), tokens).

(** A call of a builtin, which returns or raises and leaves the deque
    alone. *)
Definition builtin {A} (r : exn + A) : M A :=
  fun tokens =>
    match r with
    | inr a => Return (a, tokens)
    | inl e => Raise e
    end.

Declare Scope parser_scope.
Delimit Scope parser_scope with parser.
Notation "x <- m ;; k" := (bind m (fun x => k))
  (at level 61, m at next level, right associativity) : parser_scope.
Notation "m ;; k" := (bind m (fun _ => k))
  (at level 61, right associativity) : parser_scope.

Module Parser.

Section WithInt.

(** The builtin [int] applied to a lexeme: it returns an integer or
    raises.  The parser only passes its result on, so it is kept
    abstract. *)
Variable int : string -> exn + Z.

Open Scope parser_scope.

(** [deque.popleft] raises [IndexError] on an empty deque; the popped
    token is compared only afterwards. *)
Definition consume (expected_type : string) : M Token :=
  fun tokens =>
    match tokens with
    | [] => Raise (IndexError "pop from an empty deque")
    | token :: tokens' =>
        if String.eqb (type token) expected_type then Return (token, tokens')
        else Raise (RuntimeError ("Expected token_type: " ++ expected_type
                                  ++ ", got: " ++ type token))
    end.

(** [self.tokens[offset]] raises [IndexError] past the end. *)
Definition peek (expected_type : string) (offset : nat) : M bool :=
  fun tokens =>
    match nth_error tokens offset with
    | Some token => Return (String.eqb (type token) expected_type, tokens)
    | None => Raise (IndexError "deque index out of range")
    end.

(** The [while] loop of [parse_args]. *)
Fixpoint parse_args_loop (rounds : nat) (args : list string) : M (list string) :=
  match rounds with
  | O => out_of_fuel
  | S rounds' =>
      more <- peek "_comma" 0 ;;
      if more then
        consume "_comma" ;;
        tok <- consume "_identifier" ;;
        parse_args_loop rounds' (args ++ [val tok])
      else ret args
  end.

Definition parse_args : M (list string) :=
  consume "_oparen" ;;
  is_id <- peek "_identifier" 0 ;;
  args <- (if is_id then
             tok <- consume "_identifier" ;;
             rounds <- rounds_left ;;
             parse_args_loop rounds [val tok]
           else ret []) ;;
  consume "_cparen" ;;
  ret args.

Definition parse_variable_ref : M Node :=
  tok <- consume "_identifier" ;;
  ret (VarRefNode (val tok)).

(** The [while] loop of [parse_call_args]; [parse_expr] is the method it
    calls in each round. *)
Fixpoint parse_call_args_loop (parse_expr : M Node) (rounds : nat)
    (args : list Node) : M (list Node) :=
  match rounds with
  | O => out_of_fuel
  | S rounds' =>
      more <- peek "_comma" 0 ;;
      if more then
        consume "_comma" ;;
        e <- parse_expr ;;
        parse_call_args_loop parse_expr rounds' (args ++ [e])
      else ret args
  end.

(** [parse_expr], [parse_call] and [parse_call_args] call each other, a
    stack frame deeper each time, and the interpreter refuses a call that
    finds no room on its stack.  [room] is the number of further nested
    activations of the parser's methods that still fit; the calls of
    [peek], [consume] and the node constructors, which return before the
    next activation, are covered by a reserve (see [recursion_budget]).
    With no room left a method still does its own work and raises
    [RecursionError] where it would call [parse_call], [parse_call_args],
    [parse_expr] or [parse_variable_ref]. *)
Fixpoint parse_expr (room : nat) : M Node :=
  is_int <- peek "_integer" 0 ;;
  if is_int then
    tok <- consume "_integer" ;;
    n <- builtin (int (val tok)) ;;
    ret (IntegerNode n)
  else
    is_id <- peek "_identifier" 0 ;;
    is_call <- (if is_id then peek "_oparen" 1 else ret false) ;;
    if is_call then
      match room with
      | O => raise RecursionError
      | S room' => parse_call room'
      end
    else
      match room with
      | O => raise RecursionError
      | S _ => parse_variable_ref
      end

with parse_call (room : nat) : M Node :=
  tok <- consume "_identifier" ;;
  args <- match room with
          | O => raise RecursionError
          | S room' => parse_call_args room'
          end ;;
  ret (CallNode (val tok) args)

with parse_call_args (room : nat) : M (list Node) :=
  consume "_oparen" ;;
  at_close <- peek "_cparen" 0 ;;
  args <- (if negb at_close then
             match room with
             | O => raise RecursionError
             | S room' =>
                 e <- parse_expr room' ;;
                 rounds <- rounds_left ;;
                 parse_call_args_loop (parse_expr room') rounds [e]
             end
           else ret []) ;;
  consume "_cparen" ;;
  ret args.

Definition parse_def (room : nat) : M Node :=
  consume "_def" ;;
  tok <- consume "_identifier" ;;
  args <- match room with
          | O => raise RecursionError
          | S _ => parse_args
          end ;;
  body <- match room with
          | O => raise RecursionError
          | S room' => parse_expr room'
          end ;;
  consume "_end" ;;
  ret (DefNode (val tok) body args).


(** The interpreter's default recursion limit, which the program never
    changes. *)
Definition recursion_limit : nat := 1000.

(** The frames on the stack while [parse_def] runs, as [run_compiler]
    reaches it: the module, [run_compiler], [parse] and [parse_def]. *)
Definition frames_in_use : nat := 4.

(** What is kept free for the calls of [peek], [consume] and the node
    constructors made by the deepest activation. *)
Definition leaf_reserve : nat := 2.

(** The nested activations that fit below [parse_def]. *)
Definition recursion_budget : nat :=
  recursion_limit - frames_in_use - leaf_reserve.

(** [Parser(tokens).parse()]: the node, and what is left in the deque. *)
Definition parse_run (tokens : list Token) : outcome (Node * list Token) :=
  parse_def recursion_budget tokens.

Definition parse (tokens : list Token) : outcome Node :=
  match parse_run tokens with
  | Return (node, _) => Return node
  | Raise e => Raise e
  | OutOfFuel => OutOfFuel
  end.

(** The two stages in sequence, as [run_compiler] chains them. *)
Definition front_end (text : string) : outcome Node :=
  match Tokenizer.get_tokens text with
  | Return tokens => parse tokens
  | Raise e => Raise e
  | OutOfFuel => OutOfFuel
  end.

End WithInt.

End Parser.

(** The value of [int] on a string of ASCII decimal digits. *)
Definition digit_value (c : ascii) : Z := Z.of_nat (nat_of_ascii c - 48).

Fixpoint decimal_value (acc : Z) (s : string) : Z :=
  match s with
  | EmptyString => acc
  | String c s' => decimal_value (10 * acc + digit_value c) s'
  end.

Fixpoint all_chars (p : ascii -> bool) (s : string) : bool :=
  match s with
  | EmptyString => true
  | String c s' => p c && all_chars p s'
  end.

(** An instance of [int] for the examples: a non-empty string of ASCII
    digits is read as a decimal number, and every other string is a
    [ValueError] here. *)
Definition int_of_digits (s : string) : exn + Z :=
  match s with
  | EmptyString => inl (ValueError "invalid literal for int()")
  | String _ _ =>
      if all_chars is_digit s then inr (decimal_value 0 s)
      else inl (ValueError "invalid literal for int()")
  end.

(** ** Notions the properties are stated with *)

(** The text under the scanner's cursor after [n] tokens were produced:
    [n] rounds of [get_one_token] followed by [strip]. *)
Fixpoint cursor_after (n : nat) (inp : string) : option string :=
  match n with
  | O => Some inp
  | S n' =>
      match Tokenizer.get_one_token inp with
      | Return (_, inp') => cursor_after n' (strip inp')
      | _ => None
      end
  end.

Definition no_rule_matches (inp : string) : bool :=
  forallb (fun rule =>
             match Re.re_match (snd rule) inp with
             | None => true
             | Some _ => false
             end) Tokenizer.TOKEN_TYPES.

(** The lexemes of a token sequence, written out with single spaces. *)
Definition join_lexemes (tokens : list Token) : string :=
  join " " (map val tokens).

(** The room an expression needs below the activation of [parse_expr]
    that parses it: none for an integer, one activation
    ([parse_variable_ref]) for a variable reference, two ([parse_call],
    [parse_call_args]) for a call without arguments, and one more than its
    most demanding argument needs on top of that for another call.  A
    definition needs the room of its body below the activation of
    [parse_expr] that [parse_def] makes. *)
Fixpoint room_needed (n : Node) : nat :=
  match n with
  | IntegerNode _ => 0
  | VarRefNode _ => 1
  | CallNode _ [] => 2
  | CallNode _ args => 3 + list_max (map room_needed args)
  | DefNode _ body _ => S (room_needed body)
  end.

Definition is_call (n : Node) : bool :=
  match n with
  | CallNode _ _ => true
  | _ => false
  end.

(** The grammar of the language over token sequences, production by
    production, together with the tree each derivation denotes:
<<
    definition := "def" IDENTIFIER param_list expr "end"
    param_list := "(" [ IDENTIFIER { "," IDENTIFIER } ] ")"
    expr       := INTEGER | IDENTIFIER "(" arg_list ")" | IDENTIFIER
    arg_list   := [ expr { "," expr } ]
>>
    A terminal is a token of the corresponding [type]. *)
Module Grammar.

Section WithInt.

Variable int : string -> exn + Z.

Inductive expr : list Token -> Node -> Prop :=
| expr_integer tok n :
    type tok = "_integer" -> int (val tok) = inr n ->
    expr [tok] (IntegerNode n)
| expr_call tok lp ts rp args :
    type tok = "_identifier" -> type lp = "_oparen" ->
    arg_list ts args -> type rp = "_cparen" ->
    expr (tok :: lp :: ts ++ [rp]) (CallNode (val tok) args)
| expr_variable tok :
    type tok = "_identifier" ->
    expr [tok] (VarRefNode (val tok))

with arg_list : list Token -> list Node -> Prop :=
| arg_list_empty : arg_list [] []
| arg_list_some ts e ts' es :
    expr ts e -> more_args ts' es ->
    arg_list (ts ++ ts') (e :: es)

with more_args : list Token -> list Node -> Prop :=
| more_args_done : more_args [] []
| more_args_next c ts e ts' es :
    type c = "_comma" -> expr ts e -> more_args ts' es ->
    more_args (c :: ts ++ ts') (e :: es).

Inductive more_params : list Token -> list string -> Prop :=
| more_params_done : more_params [] []
| more_params_next c tok ts ps :
    type c = "_comma" -> type tok = "_identifier" ->
    more_params ts ps ->
    more_params (c :: tok :: ts) (val tok :: ps).

Inductive param_list : list Token -> list string -> Prop :=
| param_list_empty lp rp :
    type lp = "_oparen" -> type rp = "_cparen" ->
    param_list [lp; rp] []
| param_list_some lp tok ts rp ps :
    type lp = "_oparen" -> type tok = "_identifier" ->
    more_params ts ps -> type rp = "_cparen" ->
    param_list (lp :: tok :: ts ++ [rp]) (val tok :: ps).

Inductive definition : list Token -> Node -> Prop :=
| definition_intro d name ps params body_ts body e :
    type d = "_def" -> type name = "_identifier" ->
    param_list ps params -> expr body_ts body -> type e = "_end" ->
    definition (d :: name :: ps ++ body_ts ++ [e])
               (DefNode (val name) body params).

End WithInt.

Scheme expr_ind' := Minimality for expr Sort Prop
  with arg_list_ind' := Minimality for arg_list Sort Prop
  with more_args_ind' := Minimality for more_args Sort Prop.
Combined Scheme expr_mutind from expr_ind', arg_list_ind', more_args_ind'.

End Grammar.

Import Re Tokenizer Parser.

Definition tk (ty lexeme : string) : Token := mkToken ty lexeme.

(** A token the scanner can produce: scanning its lexeme alone gives the
    token back, and the lexeme holds no whitespace. *)
Definition lexeme_ok (tok : Token) : Prop :=
  get_one_token (val tok) = Return (tok, EmptyString) /\
  all_chars (fun c => negb (is_space c)) (val tok) = true.

(** The pattern cannot tell a following [h] from the end of the text. *)
Definition blind_to (h : ascii) (p : pattern) : bool :=
  forallb (fun a =>
             match a with
             | Boundary => negb (is_word h)
             | Lit c => negb (Ascii.eqb c h)
             | Plus cls => negb (cls h)
             end) p.

(** What may follow an expression that the grammar derives: a token that
    is not an opening parenthesis. *)
Definition follows_expr (rest : list Token) : Prop :=
  match rest with
  | t :: _ => type t <> "_oparen"
  | [] => False
  end.

(** The rule that fires on [inp] and the span of its match: the decision
    [scan_rules] takes, without the slicing. *)
Fixpoint first_match (rules : list (string * pattern)) (inp : string)
    : option (string * nat * nat) :=
  match rules with
  | [] => None
  | (token_type, rgx) :: rules' =>
      match re_match rgx inp with
      | Some (st, en) => Some (token_type, st, en)
      | None => first_match rules' inp
      end
  end.

(** The lexeme each kind of token can carry, read off the rule table. *)
Definition token_shape (tok : Token) : bool :=
  let v := val tok in
  let word (cls : ascii -> bool) :=
    negb (v =? "")%string && all_chars cls v in
  if (type tok =? "_def")%string then (v =? "def")%string
  else if (type tok =? "_end")%string then (v =? "end")%string
  else if (type tok =? "_identifier")%string then word is_letter
  else if (type tok =? "_integer")%string then word is_digit
  else if (type tok =? "_oparen")%string then (v =? "(")%string
  else if (type tok =? "_cparen")%string then (v =? ")")%string
  else if (type tok =? "_comma")%string then (v =? ",")%string
  else false.

(** The characters of [s] that satisfy [p], in order. *)
Fixpoint filter_chars (p : ascii -> bool) (s : string) : string :=
  match s with
  | EmptyString => EmptyString
  | String c s' =>
      if p c then String c (filter_chars p s') else filter_chars p s'
  end.

(** The text without its whitespace characters. *)
Definition without_whitespace (s : string) : string :=
  filter_chars (fun c => negb (is_space c)) s.

(** The lexemes of a token sequence written one after the other. *)
Definition concat_lexemes (tokens : list Token) : string :=
  join "" (map val tokens).

(** The exceptions [parse] can end with: the interpreter's
    [RecursionError], the ones the parser's own code raises, and the ones
    it passes on from [int]. *)
Definition parser_error (int : string -> exn + Z) (e : exn) : Prop :=
  e = RecursionError \/
  e = IndexError "pop from an empty deque" \/
  e = IndexError "deque index out of range" \/
  (exists expected got,
     e = RuntimeError ("Expected token_type: " ++ expected ++ ", got: " ++ got)) \/
  (exists lexeme, int lexeme = inl e).

(** A token the scanner produces from its own lexeme: it has the shape
    of its rule, and an identifier is neither [def] nor starts with [end],
    which the keyword rules would take first. *)
Definition scannable (tok : Token) : bool :=
  token_shape tok &&
  (if (type tok =? "_identifier")%string
   then negb (val tok =? "def")%string && negb (prefix "end" (val tok))
   else true).

(** A body of calls nested [depth] deep around an integer,
    [f ( f ( ... 1 ... ) )], its tree, and the definition of [g] with that
    body. *)
Fixpoint nested_call_tokens (depth : nat) : list Token :=
  match depth with
  | O => [tk "_integer" "1"]
  | S depth' =>
      (tk "_identifier" "f" :: tk "_oparen" "(" :: nested_call_tokens depth')
        ++ [tk "_cparen" ")"]
  end%list.

Fixpoint nested_call_node (depth : nat) : Node :=
  match depth with
  | O => IntegerNode 1
  | S depth' => CallNode "f" [nested_call_node depth']
  end.

Definition nested_definition_tokens (depth : nat) : list Token :=
  ([tk "_def" "def"; tk "_identifier" "g"; tk "_oparen" "("; tk "_cparen" ")"]
     ++ nested_call_tokens depth ++ [tk "_end" "end"])%list.

Definition nested_definition_node (depth : nat) : Node :=
  DefNode "g" (nested_call_node depth) [].

(** * Properties *)

(** ** Character classes *)

Lemma letter_is_word c : is_letter c = true -> is_word c = true.
Proof.
  destruct c as [[] [] [] [] [] [] [] []]; vm_compute; congruence.
Qed.

Lemma digit_is_word c : is_digit c = true -> is_word c = true.
Proof.
  destruct c as [[] [] [] [] [] [] [] []]; vm_compute; congruence.
Qed.

Lemma word_not_space c : is_word c = true -> is_space c = false.
Proof.
  destruct c as [[] [] [] [] [] [] [] []]; vm_compute; congruence.
Qed.

Lemma not_word_not_letter c : is_word c = false -> is_letter c = false.
Proof.
  intros H. destruct (is_letter c) eqn:E; [|reflexivity].
  apply letter_is_word in E. congruence.
Qed.

Lemma not_word_not_digit c : is_word c = false -> is_digit c = false.
Proof.
  intros H. destruct (is_digit c) eqn:E; [|reflexivity].
  apply digit_is_word in E. congruence.
Qed.

(** ** Strings *)

Lemma append_nil_r (s : string) : s ++ "" = s.
Proof. induction s; simpl; congruence. Qed.

Lemma length_append (a b : string) :
  String.length (a ++ b) = String.length a + String.length b.
Proof. induction a; simpl; congruence. Qed.

Lemma take_append (v rest : string) : take (String.length v) (v ++ rest) = v.
Proof. induction v; simpl; [destruct rest|]; congruence. Qed.

Lemma drop_append (v rest : string) : drop (String.length v) (v ++ rest) = rest.
Proof. induction v; simpl; congruence. Qed.

Lemma take_drop (n : nat) (s : string) : take n s ++ drop n s = s.
Proof.
  revert s; induction n; intros [|c s]; simpl; try reflexivity.
  now rewrite IHn.
Qed.

Lemma length_take (n : nat) (s : string) :
  n <= String.length s -> String.length (take n s) = n.
Proof.
  revert s; induction n; intros [|c s]; simpl; intros H; try lia.
  rewrite IHn; lia.
Qed.

Lemma length_lstrip (s : string) : String.length (lstrip s) <= String.length s.
Proof. induction s; simpl; [lia|]. destruct (is_space a); simpl; lia. Qed.

Lemma length_rstrip (s : string) : String.length (rstrip s) <= String.length s.
Proof.
  induction s; simpl; [lia|].
  destruct (rstrip s); [destruct (is_space a)|]; simpl in *; lia.
Qed.

Lemma length_strip (s : string) : String.length (strip s) <= String.length s.
Proof.
  unfold strip. pose proof (length_rstrip (lstrip s)).
  pose proof (length_lstrip s). lia.
Qed.

Lemma rstrip_cons c s : is_space c = false -> rstrip (String c s) = String c (rstrip s).
Proof. intros H; simpl. rewrite H. now destruct (rstrip s). Qed.

Lemma rstrip_append v s :
  all_chars (fun c => negb (is_space c)) v = true ->
  rstrip (v ++ s) = v ++ rstrip s.
Proof.
  induction v; simpl; intros H; [reflexivity|].
  apply andb_prop in H as [Ha Hv]. apply negb_true_iff in Ha.
  fold (rstrip (v ++ s)). rewrite <- IHv by assumption.
  change (rstrip (String a (v ++ s)) = String a (rstrip (v ++ s))).
  now apply rstrip_cons.
Qed.

Lemma rstrip_clean v :
  all_chars (fun c => negb (is_space c)) v = true -> rstrip v = v.
Proof.
  intros H. rewrite <- (append_nil_r v) at 1.
  rewrite rstrip_append by assumption. simpl. apply append_nil_r.
Qed.

Lemma all_chars_weaken (p q : ascii -> bool) s :
  (forall c, p c = true -> q c = true) ->
  all_chars p s = true -> all_chars q s = true.
Proof.
  intros Hpq. induction s; simpl; [reflexivity|].
  intros H. apply andb_prop in H as [Ha Hs].
  now rewrite (Hpq _ Ha), IHs.
Qed.

(** ** The matcher *)

Lemma match_plus_le cls k s n :
  (forall prev s' m, k prev s' = Some m -> m <= String.length s') ->
  match_plus cls k s = Some n -> n <= String.length s.
Proof.
  intros Hk. revert n. induction s as [|c s IH]; simpl; intros n; [discriminate|].
  destruct (cls c); [|discriminate].
  destruct (match_plus cls k s) as [m|].
  - intros [= <-]. specialize (IH _ eq_refl). lia.
  - destruct (k (Some c) s) as [m|] eqn:E; simpl; [|discriminate].
    intros [= <-]. apply Hk in E. lia.
Qed.

Lemma match_atoms_le p prev s n :
  match_atoms p prev s = Some n -> n <= String.length s.
Proof.
  revert prev s n. induction p as [|a p IH]; simpl; intros prev s n H.
  - injection H as <-. lia.
  - destruct a.
    + destruct (at_boundary prev s); [eauto|discriminate].
    + destruct s as [|x s]; [discriminate|].
      destruct (Ascii.eqb x c); [|discriminate].
      destruct (match_atoms p (Some x) s) as [m|] eqn:E; simpl in H; [|discriminate].
      injection H as <-. apply IH in E. simpl. lia.
    + eapply match_plus_le; [|eassumption]. intros; eauto.
Qed.

(** A pattern blind to [h] matches [v ++ h...] exactly as it matches [v]. *)
Lemma match_atoms_blind h rest p :
  blind_to h p = true ->
  forall prev v,
    match_atoms p prev (v ++ String h rest) = match_atoms p prev v.
Proof.
  induction p as [|a p IH]; simpl; intros Hb prev v; [reflexivity|].
  apply andb_prop in Hb as [Ha Hp]. specialize (IH Hp).
  destruct a.
  - apply negb_true_iff in Ha.
    assert (at_boundary prev (v ++ String h rest) = at_boundary prev v) as ->.
    { unfold at_boundary. destruct v; simpl; [now rewrite Ha|reflexivity]. }
    now rewrite IH.
  - apply negb_true_iff in Ha.
    destruct v as [|x v]; simpl.
    + rewrite Ascii.eqb_sym, Ha. reflexivity.
    + now rewrite IH.
  - apply negb_true_iff in Ha.
    induction v as [|x v IHv]; simpl.
    + now rewrite Ha.
    + now rewrite IHv, IH.
Qed.

Lemma re_match_blind h rest p v :
  blind_to h p = true ->
  re_match p (v ++ String h rest) = re_match p v.
Proof. intros H. unfold re_match. now rewrite match_atoms_blind. Qed.

(** [cls+\b] for a class of word characters: the longest run of [cls]
    characters, provided no word character follows it. *)
Lemma match_plus_boundary cls k s n :
  (forall c, cls c = true -> is_word c = true) ->
  (forall prev s', k prev s' = if at_boundary prev s' then Some 0 else None) ->
  match_plus cls k s = Some n ->
  exists v rest,
    s = v ++ rest /\ n = String.length v /\ v <> "" /\
    all_chars cls v = true /\ word_after rest = false.
Proof.
  intros Hw Hk. revert n.
  induction s as [|c s IH]; simpl; intros n; [discriminate|].
  destruct (cls c) eqn:Ec; [|discriminate].
  destruct (match_plus cls k s) as [m|].
  - intros [= <-]. destruct (IH _ eq_refl) as (v & rest & -> & -> & _ & Hv & Hr).
    exists (String c v), rest. simpl. rewrite Ec, Hv. repeat split; congruence.
  - rewrite Hk. unfold at_boundary; simpl. rewrite (Hw _ Ec). simpl.
    destruct (word_after s) eqn:Es; simpl; [discriminate|].
    intros [= <-]. exists (String c ""), s. simpl. rewrite Ec.
    repeat split; congruence.
Qed.

(** ** What each rule of the table matches *)

Ltac step_lit H :=
  match type of H with
  | context [Ascii.eqb ?x ?c] =>
      destruct (Ascii.eqb_spec x c); [subst x|discriminate H]
  end.

Lemma def_rule_spec inp n :
  match_atoms [Boundary; Lit "d"; Lit "e"; Lit "f"; Boundary] None inp = Some n ->
  exists rest, inp = "def" ++ rest /\ n = 3 /\ word_after rest = false.
Proof.
  intros H. unfold match_atoms, at_boundary in H.
  destruct inp as [|c1 inp]; simpl in H; [discriminate|].
  destruct (is_word c1); simpl in H; [|discriminate].
  step_lit H.
  destruct inp as [|c2 inp]; simpl in H; [discriminate|]. step_lit H.
  destruct inp as [|c3 inp]; simpl in H; [discriminate|]. step_lit H.
  change (is_word "f") with true in H. simpl in H.
  exists inp. destruct (word_after inp); simpl in H; [discriminate|].
  injection H as <-. auto.
Qed.

Lemma end_rule_spec inp n :
  match_atoms [Boundary; Lit "e"; Lit "n"; Lit "d"] None inp = Some n ->
  exists rest, inp = "end" ++ rest /\ n = 3.
Proof.
  intros H. unfold match_atoms, at_boundary in H.
  destruct inp as [|c1 inp]; simpl in H; [discriminate|].
  destruct (is_word c1); simpl in H; [|discriminate].
  step_lit H.
  destruct inp as [|c2 inp]; simpl in H; [discriminate|]. step_lit H.
  destruct inp as [|c3 inp]; simpl in H; [discriminate|]. step_lit H.
  simpl in H. injection H as <-. exists inp. auto.
Qed.

Lemma run_rule_spec cls inp n :
  (forall c, cls c = true -> is_word c = true) ->
  match_atoms [Boundary; Plus cls; Boundary] None inp = Some n ->
  exists v rest,
    inp = v ++ rest /\ n = String.length v /\ v <> "" /\
    all_chars cls v = true /\ word_after rest = false.
Proof.
  intros Hw H. cbn [match_atoms] in H.
  destruct (at_boundary None inp); [|discriminate].
  eapply match_plus_boundary in H; eauto.
Qed.

Lemma lit_rule_spec c inp n :
  match_atoms [Lit c] None inp = Some n ->
  exists rest, inp = String c rest /\ n = 1.
Proof.
  destruct inp as [|x inp]; simpl; [discriminate|].
  destruct (Ascii.eqb_spec x c); [subst x|discriminate].
  intros [= <-]. eauto.
Qed.

(** The four word rules are blind to any character that is not a word
    character, and every rule is blind to a space. *)
Lemma word_rules_blind h ty p :
  is_word h = false ->
  In (ty, p) (firstn 4 TOKEN_TYPES) -> blind_to h p = true.
Proof.
  intros Hh Hin. simpl in Hin.
  assert (forall c, is_word c = true -> Ascii.eqb c h = false) as Hne.
  { intros c Hc. destruct (Ascii.eqb_spec c h); congruence. }
  destruct Hin as [E|[E|[E|[E|[]]]]]; injection E as <- <-;
    unfold blind_to; cbn [forallb];
    rewrite ?Hh, ?(not_word_not_letter _ Hh), ?(not_word_not_digit _ Hh),
      ?(Hne "d"%char), ?(Hne "e"%char), ?(Hne "f"%char), ?(Hne "n"%char);
    reflexivity.
Qed.

Lemma rules_blind_to_space ty p :
  In (ty, p) TOKEN_TYPES -> blind_to " " p = true.
Proof.
  intros Hin. simpl in Hin.
  repeat (destruct Hin as [E|Hin]; [injection E as <- <-; reflexivity|]).
  destruct Hin.
Qed.

Lemma scan_rules_first_match rules inp :
  scan_rules rules inp =
  match first_match rules inp with
  | Some (ty, st, en) => Return (mkToken ty (slice st en inp), slice_from en inp)
  | None => Raise (RuntimeError ("Unexpected token at: " ++ inp))
  end.
Proof.
  induction rules as [|[ty p] rules IH]; simpl; [reflexivity|].
  destruct (re_match p inp) as [[st en]|]; [reflexivity|exact IH].
Qed.

Lemma first_match_app l1 l2 inp :
  first_match (l1 ++ l2)%list inp =
  match first_match l1 inp with
  | Some m => Some m
  | None => first_match l2 inp
  end.
Proof.
  induction l1 as [|[ty p] l1 IH]; simpl; [reflexivity|].
  destruct (re_match p inp) as [[st en]|]; [reflexivity|exact IH].
Qed.

Lemma first_match_ext rules s1 s2 :
  (forall ty p, In (ty, p) rules -> re_match p s1 = re_match p s2) ->
  first_match rules s1 = first_match rules s2.
Proof.
  induction rules as [|[ty p] rules IH]; simpl; intros H; [reflexivity|].
  rewrite (H ty p) by auto. rewrite IH by eauto. reflexivity.
Qed.

Lemma first_match_In rules inp ty st en :
  first_match rules inp = Some (ty, st, en) ->
  exists p, In (ty, p) rules /\ re_match p inp = Some (st, en).
Proof.
  induction rules as [|[ty' p] rules IH]; simpl; [discriminate|].
  destruct (re_match p inp) as [[st' en']|] eqn:E.
  - intros [= <- <- <-]. eauto.
  - intros H. destruct (IH H) as (q & Hq & Eq). eauto.
Qed.

Lemma re_match_span p inp st en :
  re_match p inp = Some (st, en) ->
  st = 0 /\ match_atoms p None inp = Some en.
Proof.
  unfold re_match. destruct (match_atoms p None inp); simpl; [|discriminate].
  intros [= <- <-]. auto.
Qed.

Lemma word_rules_trunc ty p v rest :
  In (ty, p) (firstn 4 TOKEN_TYPES) -> word_after rest = false ->
  re_match p (v ++ rest) = re_match p v.
Proof.
  intros Hin Hr. destruct rest as [|h rest].
  - now rewrite append_nil_r.
  - apply re_match_blind. eapply word_rules_blind; eassumption.
Qed.

Lemma take_all v : take (String.length v) v = v.
Proof. rewrite <- (append_nil_r v) at 2. apply take_append. Qed.

Lemma drop_all v : drop (String.length v) v = "".
Proof. rewrite <- (append_nil_r v) at 2. apply drop_append. Qed.

(** A word rule that fires on [v ++ rest], with no word character at the
    head of [rest], fires in the same way on [v] alone. *)
Lemma first_match_word_trunc v rest m :
  word_after rest = false ->
  first_match (firstn 4 TOKEN_TYPES) (v ++ rest) = Some m ->
  first_match TOKEN_TYPES v = Some m.
Proof.
  intros Hr H.
  change TOKEN_TYPES with (firstn 4 TOKEN_TYPES ++ skipn 4 TOKEN_TYPES)%list.
  rewrite first_match_app.
  rewrite (first_match_ext _ v (v ++ rest)), H; [reflexivity|].
  intros ty p Hin. symmetry. eapply word_rules_trunc; eassumption.
Qed.

(** The shape of every successful match of the table. *)
Lemma first_match_spec inp ty st en :
  first_match TOKEN_TYPES inp = Some (ty, st, en) ->
  st = 0 /\
  exists v rest,
    inp = v ++ rest /\ en = String.length v /\
    first_match TOKEN_TYPES v = Some (ty, 0, String.length v) /\
    all_chars (fun c => negb (is_space c)) v = true.
Proof.
  intros H.
  change TOKEN_TYPES with (firstn 4 TOKEN_TYPES ++ skipn 4 TOKEN_TYPES)%list in H.
  rewrite first_match_app in H.
  destruct (first_match (firstn 4 TOKEN_TYPES) inp) as [m|] eqn:E4.
  - (* a word rule fired *)
    injection H as ->.
    assert (exists v rest, inp = v ++ rest /\ st = 0 /\ en = String.length v /\
              all_chars is_word v = true /\
              (ty = "_end" -> v = "end") /\
              (ty <> "_end" -> word_after rest = false))
      as (v & rest & -> & -> & -> & Hv & Hend & Hr).
    { apply first_match_In in E4 as (p & Hin & Hm).
      apply re_match_span in Hm as [-> Hm]. simpl in Hin.
      destruct Hin as [E|[E|[E|[E|[]]]]]; injection E as <- <-.
      - apply def_rule_spec in Hm as (rest & -> & -> & Hr).
        exists "def", rest. repeat split; auto; discriminate.
      - apply end_rule_spec in Hm as (rest & -> & ->).
        exists "end", rest. repeat split; auto; congruence.
      - apply run_rule_spec in Hm as (v & rest & -> & -> & _ & Hv & Hr);
          [|exact letter_is_word].
        exists v, rest. repeat split; auto; [|discriminate].
        eapply all_chars_weaken; [exact letter_is_word|exact Hv].
      - apply run_rule_spec in Hm as (v & rest & -> & -> & _ & Hv & Hr);
          [|exact digit_is_word].
        exists v, rest. repeat split; auto; [|discriminate].
        eapply all_chars_weaken; [exact digit_is_word|exact Hv]. }
    split; [reflexivity|]. exists v, rest. repeat split.
    + destruct (String.eqb_spec ty "_end") as [->|Hne].
      * rewrite (Hend eq_refl). reflexivity.
      * eapply first_match_word_trunc; eauto.
    + eapply all_chars_weaken; [|exact Hv].
      intros c Hc. now rewrite (word_not_space _ Hc).
  - (* a punctuation rule fired *)
    apply first_match_In in H as (p & Hin & Hm).
    apply re_match_span in Hm as [-> Hm]. simpl in Hin.
    destruct Hin as [E|[E|[E|[]]]]; injection E as <- <-;
      apply lit_rule_spec in Hm as (rest & -> & ->);
      (split; [reflexivity|]);
      match goal with
      | |- context [String ?c rest] => exists (String c ""), rest
      end; repeat split.
Qed.

(** ** One scanning step *)

Lemma get_one_token_first_match inp :
  get_one_token inp =
  match first_match TOKEN_TYPES inp with
  | Some (ty, st, en) => Return (mkToken ty (slice st en inp), slice_from en inp)
  | None => Raise (RuntimeError ("Unexpected token at: " ++ inp))
  end.
Proof. apply scan_rules_first_match. Qed.

Lemma get_one_token_spec inp tok rest :
  get_one_token inp = Return (tok, rest) ->
  inp = val tok ++ rest /\ lexeme_ok tok.
Proof.
  rewrite get_one_token_first_match.
  destruct (first_match TOKEN_TYPES inp) as [[[ty st] en]|] eqn:E; [|discriminate].
  apply first_match_spec in E as (-> & v & r & -> & -> & Hv & Hs).
  unfold slice, slice_from. simpl drop at 1. rewrite Nat.sub_0_r.
  rewrite take_append, drop_append. intros [= <- <-]. simpl.
  split; [reflexivity|]. split; [|exact Hs]. simpl.
  rewrite get_one_token_first_match, Hv.
  unfold slice, slice_from. simpl drop at 1.
  now rewrite Nat.sub_0_r, take_all, drop_all.
Qed.

Lemma lexeme_ok_nonempty tok : lexeme_ok tok -> val tok <> "".
Proof. intros [H _] E. rewrite E in H. discriminate H. Qed.

Lemma get_one_token_shrinks inp tok rest :
  get_one_token inp = Return (tok, rest) ->
  String.length rest < String.length inp.
Proof.
  intros H. apply get_one_token_spec in H as [-> Hok].
  apply lexeme_ok_nonempty in Hok. rewrite length_append.
  destruct (val tok); [congruence|simpl; lia].
Qed.

(** Scanning a lexeme followed by a space gives the same token and stops
    in front of the space. *)
Lemma get_one_token_relex tok rest :
  lexeme_ok tok ->
  get_one_token (val tok ++ String " " rest) = Return (tok, String " " rest).
Proof.
  intros [H _]. rewrite get_one_token_first_match in *.
  rewrite (first_match_ext _ _ (val tok)).
  2:{ intros ty p Hin. apply re_match_blind.
      eapply rules_blind_to_space; eassumption. }
  destruct (first_match TOKEN_TYPES (val tok)) as [[[ty st] en]|] eqn:E;
    [|discriminate].
  apply first_match_In in E as (p & Hin & Hm).
  apply re_match_span in Hm as [-> Hm].
  unfold slice, slice_from in *. simpl drop at 1 in H. simpl drop at 1.
  rewrite Nat.sub_0_r in *.
  injection H as Htok Hdrop.
  assert (en = String.length (val tok)) as ->.
  { apply match_atoms_le in Hm.
    assert (String.length (take en (val tok) ++ drop en (val tok))
            = String.length (val tok)) as Hl by now rewrite take_drop.
    rewrite length_append, Hdrop, length_take in Hl by assumption.
    simpl in Hl. lia. }
  rewrite take_append, drop_append.
  rewrite take_all in Htok. now rewrite Htok.
Qed.

(** ** The scanning loop *)

(** The tokens already in the deque are carried through unchanged. *)
Lemma get_tokens_loop_acc fuel acc inp :
  get_tokens_loop fuel acc inp =
  match get_tokens_loop fuel [] inp with
  | Return ts => Return (acc ++ ts)%list
  | Raise e => Raise e
  | OutOfFuel => OutOfFuel
  end.
Proof.
  revert acc inp. induction fuel as [|fuel IH]; intros acc [|c inp]; simpl;
    rewrite ?app_nil_r; try reflexivity.
  destruct (get_one_token (String c inp)) as [[tok inp']| |]; try reflexivity.
  rewrite (IH (acc ++ [tok])%list), (IH [tok]).
  destruct (get_tokens_loop fuel [] (strip inp')); try reflexivity.
  now rewrite <- app_assoc.
Qed.

(** One round of the loop, with the new token in front of the rest. *)
Lemma get_tokens_loop_step fuel c inp :
  get_tokens_loop (S fuel) [] (String c inp) =
  match get_one_token (String c inp) with
  | Return (tok, inp') =>
      match get_tokens_loop fuel [] (strip inp') with
      | Return ts => Return (tok :: ts)
      | Raise e => Raise e
      | OutOfFuel => OutOfFuel
      end
  | Raise e => Raise e
  | OutOfFuel => OutOfFuel
  end.
Proof.
  simpl. destruct (get_one_token (String c inp)) as [[tok inp']| |];
    try reflexivity.
  now rewrite get_tokens_loop_acc.
Qed.

(** [String.length inp] rounds are always enough, and more change nothing. *)
Lemma get_tokens_loop_fuel fuel inp :
  String.length inp <= fuel ->
  get_tokens_loop fuel [] inp = get_tokens inp.
Proof.
  unfold get_tokens. remember (String.length inp) as n eqn:En.
  revert inp En fuel.
  induction n as [n IHn] using lt_wf_ind. intros inp En fuel Hle.
  destruct inp as [|c inp]; [now destruct fuel, n|].
  destruct fuel as [|fuel]; [simpl in En; lia|].
  destruct n as [|n]; [discriminate|].
  rewrite !get_tokens_loop_step.
  destruct (get_one_token (String c inp)) as [[tok inp']| |] eqn:E;
    try reflexivity.
  apply get_one_token_shrinks in E.
  pose proof (length_strip inp') as Hs.
  rewrite (IHn (String.length (strip inp'))) with (fuel := fuel);
    [|lia|reflexivity|lia].
  rewrite (IHn (String.length (strip inp'))) with (fuel := n);
    [|lia|reflexivity|lia].
  reflexivity.
Qed.

Lemma get_tokens_total inp : get_tokens inp <> OutOfFuel.
Proof.
  remember (String.length inp) as n eqn:En. revert inp En.
  induction n as [n IHn] using lt_wf_ind. intros inp En.
  destruct inp as [|c inp]; [discriminate|].
  unfold get_tokens. simpl String.length. rewrite get_tokens_loop_step.
  destruct (get_one_token (String c inp)) as [[tok inp']| |] eqn:E;
    [|discriminate|].
  - apply get_one_token_shrinks in E. pose proof (length_strip inp') as Hs.
    rewrite get_tokens_loop_fuel by (simpl in E; lia).
    specialize (IHn (String.length (strip inp'))).
    destruct (get_tokens (strip inp')) eqn:E'; try discriminate.
    exfalso. eapply IHn; [|reflexivity|exact E']. simpl in En, E. lia.
  - rewrite get_one_token_first_match in E.
    destruct (first_match TOKEN_TYPES (String c inp)) as [[[? ?] ?]|];
      discriminate.
Qed.

(** The unfolding of [get_tokens] the later proofs use. *)
Lemma get_tokens_cons c inp :
  get_tokens (String c inp) =
  match get_one_token (String c inp) with
  | Return (tok, inp') =>
      match get_tokens (strip inp') with
      | Return ts => Return (tok :: ts)
      | Raise e => Raise e
      | OutOfFuel => OutOfFuel
      end
  | Raise e => Raise e
  | OutOfFuel => OutOfFuel
  end.
Proof.
  unfold get_tokens at 1. simpl String.length. rewrite get_tokens_loop_step.
  destruct (get_one_token (String c inp)) as [[tok inp']| |] eqn:E;
    try reflexivity.
  apply get_one_token_shrinks in E. pose proof (length_strip inp') as Hs.
  rewrite get_tokens_loop_fuel by (simpl in E; lia). reflexivity.
Qed.

Lemma get_tokens_lexemes inp ts :
  get_tokens inp = Return ts -> Forall lexeme_ok ts.
Proof.
  remember (String.length inp) as n eqn:En. revert inp En ts.
  induction n as [n IHn] using lt_wf_ind. intros inp En ts.
  destruct inp as [|c inp]; [intros [= <-]; constructor|].
  rewrite get_tokens_cons.
  destruct (get_one_token (String c inp)) as [[tok inp']| |] eqn:E;
    try discriminate.
  destruct (get_tokens (strip inp')) as [ts'| |] eqn:E'; try discriminate.
  intros [= <-]. pose proof (get_one_token_shrinks _ _ _ E) as Hlt.
  pose proof (length_strip inp') as Hs.
  apply get_one_token_spec in E as [_ Hok]. constructor; [exact Hok|].
  eapply IHn; [|reflexivity|exact E']. simpl in En, Hlt. lia.
Qed.

Lemma get_tokens_nonempty inp :
  inp <> "" ->
  get_tokens inp =
  match get_one_token inp with
  | Return (tok, inp') =>
      match get_tokens (strip inp') with
      | Return ts => Return (tok :: ts)
      | Raise e => Raise e
      | OutOfFuel => OutOfFuel
      end
  | Raise e => Raise e
  | OutOfFuel => OutOfFuel
  end.
Proof. destruct inp; [congruence|intros _; apply get_tokens_cons]. Qed.

(** ** Writing the lexemes out again *)

Lemma join_lexemes_cons t t' ts :
  join_lexemes (t :: t' :: ts) = val t ++ String " " (join_lexemes (t' :: ts)).
Proof. reflexivity. Qed.

(** The written-out lexemes neither start nor end with whitespace. *)
Lemma join_lexemes_tidy t ts :
  Forall lexeme_ok (t :: ts) ->
  (exists c s, join_lexemes (t :: ts) = String c s /\ is_space c = false) /\
  rstrip (join_lexemes (t :: ts)) = join_lexemes (t :: ts).
Proof.
  revert t. induction ts as [|t' ts IH]; intros t Hok;
    inversion Hok as [|? ? Ht Hts]; subst.
  - pose proof (lexeme_ok_nonempty _ Ht) as Hne. destruct Ht as [_ Hv].
    unfold join_lexemes; simpl. split; [|now apply rstrip_clean].
    destruct (val t) as [|c s]; [congruence|]. simpl in Hv.
    apply andb_prop in Hv as [Hc _]. apply negb_true_iff in Hc. eauto.
  - destruct (IH _ Hts) as [(c' & s' & Ej & Hc') Hr].
    pose proof (lexeme_ok_nonempty _ Ht) as Hne. destruct Ht as [_ Hv].
    rewrite join_lexemes_cons. split.
    + destruct (val t) as [|c s]; [congruence|]. simpl in Hv.
      apply andb_prop in Hv as [Hc _]. apply negb_true_iff in Hc.
      simpl. eauto.
    + rewrite rstrip_append by assumption. f_equal.
      simpl. fold (rstrip (join_lexemes (t' :: ts))). rewrite Hr, Ej.
      reflexivity.
Qed.

Lemma strip_space_join t ts :
  Forall lexeme_ok (t :: ts) ->
  strip (String " " (join_lexemes (t :: ts))) = join_lexemes (t :: ts).
Proof.
  intros Hok. destruct (join_lexemes_tidy _ _ Hok) as [(c & s & Ej & Hc) Hr].
  unfold strip. change (lstrip (String " " ?x)) with (lstrip x).
  rewrite Ej in *. simpl lstrip. rewrite Hc. exact Hr.
Qed.

(** Scanning the written-out lexemes gives the tokens back. *)
Lemma get_tokens_join ts :
  Forall lexeme_ok ts -> get_tokens (join_lexemes ts) = Return ts.
Proof.
  induction ts as [|t ts IH]; intros Hok; [reflexivity|].
  inversion Hok as [|? ? Ht Hts]; subst.
  pose proof (lexeme_ok_nonempty _ Ht) as Hne.
  destruct ts as [|t' ts].
  - unfold join_lexemes; simpl. rewrite get_tokens_nonempty by assumption.
    destruct Ht as [-> _]. reflexivity.
  - rewrite join_lexemes_cons, get_tokens_nonempty.
    2:{ destruct (val t); [congruence|discriminate]. }
    rewrite get_one_token_relex by assumption.
    rewrite strip_space_join by assumption.
    now rewrite IH.
Qed.

(** ** Evaluating the parser's primitives *)

Lemma bind_eq {A B} (m : M A) (k : A -> M B) tokens :
  bind m k tokens =
  match m tokens with
  | Return (a, tokens') => k a tokens'
  | Raise e => Raise e
  | OutOfFuel => OutOfFuel
  end.
Proof. reflexivity. Qed.

Lemma bind_assoc {A B C} (m : M A) (f : A -> M B) (g : B -> M C) tokens :
  bind (bind m f) g tokens = bind m (fun a => bind (f a) g) tokens.
Proof. unfold bind. now destruct (m tokens) as [[a ts]| |]. Qed.

Lemma consume_ok ty t ts : type t = ty -> consume ty (t :: ts) = Return (t, ts).
Proof. intros <-. unfold consume. now rewrite String.eqb_refl. Qed.

Lemma consume_bad ty t ts :
  type t <> ty ->
  consume ty (t :: ts) =
  Raise (RuntimeError ("Expected token_type: " ++ ty ++ ", got: " ++ type t)).
Proof. intros H. unfold consume. apply String.eqb_neq in H. now rewrite H. Qed.

Lemma peek_yes ty t ts : type t = ty -> peek ty 0 (t :: ts) = Return (true, t :: ts).
Proof. intros <-. unfold peek; simpl. now rewrite String.eqb_refl. Qed.

Lemma peek_no ty t ts : type t <> ty -> peek ty 0 (t :: ts) = Return (false, t :: ts).
Proof. intros H. unfold peek; simpl. apply String.eqb_neq in H. now rewrite H. Qed.

Lemma peek1_yes ty t t' ts :
  type t' = ty -> peek ty 1 (t :: t' :: ts) = Return (true, t :: t' :: ts).
Proof. intros <-. unfold peek; simpl. now rewrite String.eqb_refl. Qed.

Lemma peek1_no ty t t' ts :
  type t' <> ty -> peek ty 1 (t :: t' :: ts) = Return (false, t :: t' :: ts).
Proof. intros H. unfold peek; simpl. apply String.eqb_neq in H. now rewrite H. Qed.

Lemma peek1_end ty t :
  peek ty 1 [t] = Raise (IndexError "deque index out of range").
Proof. reflexivity. Qed.

Lemma ret_eq {A} (a : A) tokens : ret a tokens = Return (a, tokens).
Proof. reflexivity. Qed.

Lemma rounds_left_eq tokens :
  rounds_left tokens = Return (S (List.length tokens), tokens).
Proof. reflexivity. Qed.

(** One primitive step of a method body on a deque whose front tokens'
    types are known. *)
Ltac pstep :=
  first
    [ rewrite ret_eq
    | rewrite bind_assoc
    | rewrite bind_eq;
      first [ rewrite consume_ok by congruence
            | rewrite consume_bad by congruence
            | rewrite peek_yes by congruence
            | rewrite peek_no by congruence
            | rewrite peek1_yes by congruence
            | rewrite peek1_no by congruence
            | rewrite peek1_end
            | rewrite rounds_left_eq
            | rewrite ret_eq ];
      cbv beta iota; cbn [negb] ].

Section ParserFacts.

Variable int : string -> exn + Z.

Local Open Scope list_scope.

Lemma parse_expr_eq room :
  parse_expr int room =
  (is_int <- peek "_integer" 0 ;;
   if is_int then
     tok <- consume "_integer" ;;
     n <- builtin (int (val tok)) ;;
     ret (IntegerNode n)
   else
     is_id <- peek "_identifier" 0 ;;
     is_call <- (if is_id then peek "_oparen" 1 else ret false) ;;
     if is_call then
       match room with
       | O => raise RecursionError
       | S room' => parse_call int room'
       end
     else
       match room with
       | O => raise RecursionError
       | S _ => parse_variable_ref
       end)%parser.
Proof. destruct room; reflexivity. Qed.

Lemma parse_call_eq room :
  parse_call int room =
  (tok <- consume "_identifier" ;;
   args <- match room with
           | O => raise RecursionError
           | S room' => parse_call_args int room'
           end ;;
   ret (CallNode (val tok) args))%parser.
Proof. destruct room; reflexivity. Qed.

Lemma parse_call_args_eq room :
  parse_call_args int room =
  (consume "_oparen" ;;
   at_close <- peek "_cparen" 0 ;;
   args <- (if negb at_close then
              match room with
              | O => raise RecursionError
              | S room' =>
                  e <- parse_expr int room' ;;
                  rounds <- rounds_left ;;
                  parse_call_args_loop (parse_expr int room') rounds [e]
              end
            else ret []) ;;
   consume "_cparen" ;;
   ret args)%parser.
Proof. destruct room; reflexivity. Qed.

Lemma parse_call_args_loop_S (parse_expr : M Node) rounds args :
  parse_call_args_loop parse_expr (S rounds) args =
  (more <- peek "_comma" 0 ;;
   if more then
     consume "_comma" ;;
     e <- parse_expr ;;
     parse_call_args_loop parse_expr rounds (args ++ [e])
   else ret args)%parser.
Proof. reflexivity. Qed.

Lemma parse_args_loop_S rounds args :
  parse_args_loop (S rounds) args =
  (more <- peek "_comma" 0 ;;
   if more then
     consume "_comma" ;;
     tok <- consume "_identifier" ;;
     parse_args_loop rounds (args ++ [val tok])
   else ret args)%parser.
Proof. reflexivity. Qed.

(** ** The parser accepts what the grammar derives *)

Lemma more_params_complete ts ps :
  Grammar.more_params ts ps ->
  forall rounds acc rp rest,
    List.length ts < rounds -> type rp = "_cparen" ->
    parse_args_loop rounds acc (ts ++ rp :: rest) = Return (acc ++ ps, rp :: rest).
Proof.
  induction 1 as [|c tok ts ps Hc Htok Hmore IH]; intros rounds acc rp rest Hf Hrp;
    (destruct rounds as [|rounds]; [simpl in Hf; lia|]);
    rewrite parse_args_loop_S; simpl app.
  - pstep. pstep. now rewrite app_nil_r.
  - pstep. pstep. pstep. rewrite IH by (simpl in Hf; lia || assumption).
    now rewrite <- app_assoc.
Qed.

Lemma param_list_complete ts ps :
  Grammar.param_list ts ps ->
  forall rest, parse_args (ts ++ rest) = Return (ps, rest).
Proof.
  destruct 1 as [lp rp Hlp Hrp|lp tok ts rp ps Hlp Htok Hmore Hrp];
    intros rest; unfold parse_args; simpl app.
  - pstep. pstep. pstep. pstep. pstep. reflexivity.
  - pstep. pstep. pstep. pstep. pstep. pstep.
    rewrite <- !app_assoc. simpl app.
    rewrite bind_eq, (more_params_complete _ _ Hmore);
      [|rewrite length_app; simpl; lia|assumption].
    cbv beta iota. pstep. pstep. reflexivity.
Qed.

Lemma expr_head ts n :
  Grammar.expr int ts n ->
  exists t ts', ts = t :: ts' /\ (type t = "_integer" \/ type t = "_identifier").
Proof. destruct 1; eauto. Qed.

Lemma more_args_head ts es :
  Grammar.more_args int ts es ->
  ts = [] \/ exists c ts', ts = c :: ts' /\ type c = "_comma".
Proof. destruct 1; eauto. Qed.

Lemma peek_cparen_expr ts n rest :
  Grammar.expr int ts n ->
  peek "_cparen" 0 (ts ++ rest) = Return (false, ts ++ rest).
Proof.
  intros H. apply expr_head in H as (t & ts' & -> & [H|H]); simpl;
    apply peek_no; congruence.
Qed.

Lemma follows_expr_more_args ts es rp rest :
  Grammar.more_args int ts es -> type rp = "_cparen" ->
  follows_expr (ts ++ rp :: rest).
Proof.
  intros H Hrp. apply more_args_head in H as [->|(c & ts' & -> & Hc)]; simpl;
    congruence.
Qed.

Lemma room_needed_call name e es :
  room_needed (CallNode name (e :: es))
  = 3 + Nat.max (room_needed e) (list_max (map room_needed es)).
Proof. reflexivity. Qed.

(** With enough room, and enough rounds for the loop, every derivation is
    parsed to its tree. *)
Lemma expr_complete_mut :
  (forall ts n, Grammar.expr int ts n ->
     forall room rest,
       room_needed n <= room -> follows_expr rest ->
       parse_expr int room (ts ++ rest) = Return (n, rest)) /\
  (forall ts es, Grammar.arg_list int ts es ->
     forall name room lp rp rest,
       room_needed (CallNode name es) <= 2 + room ->
       type lp = "_oparen" -> type rp = "_cparen" ->
       parse_call_args int room (lp :: ts ++ rp :: rest) = Return (es, rest)) /\
  (forall ts es, Grammar.more_args int ts es ->
     forall room rounds acc rp rest,
       list_max (map room_needed es) <= room ->
       List.length ts < rounds -> type rp = "_cparen" ->
       parse_call_args_loop (parse_expr int room) rounds acc (ts ++ rp :: rest)
       = Return (acc ++ es, rp :: rest)).
Proof.
  apply Grammar.expr_mutind.
  - (* INTEGER *)
    intros tok n Hty Hint room rest _ _.
    rewrite parse_expr_eq. simpl app.
    pstep. pstep. rewrite bind_eq. unfold builtin. rewrite Hint. reflexivity.
  - (* IDENTIFIER "(" arg_list ")" *)
    intros tok lp ts rp args Htok Hlp _ IH Hrp room rest Hroom _.
    assert (2 <= room) as H2 by (destruct args; simpl in Hroom; lia).
    destruct room as [|[|room]]; [lia|lia|].
    rewrite parse_expr_eq. simpl app. rewrite <- app_assoc. simpl app.
    pstep. pstep. pstep. rewrite parse_call_eq. pstep.
    rewrite bind_eq, (IH (val tok)) by (lia || assumption). reflexivity.
  - (* IDENTIFIER *)
    intros tok Htok room [|t rest] Hroom Hfol; [contradiction|].
    simpl in Hfol, Hroom. destruct room as [|room]; [lia|].
    rewrite parse_expr_eq. simpl app.
    pstep. pstep. pstep. unfold parse_variable_ref. pstep. reflexivity.
  - (* no argument *)
    intros name room lp rp rest _ Hlp Hrp.
    rewrite parse_call_args_eq. simpl app.
    pstep. pstep. pstep. pstep. reflexivity.
  - (* a first argument and the others *)
    intros ts e ts' es He IHe Hm IHm name room lp rp rest Hroom Hlp Hrp.
    rewrite room_needed_call in Hroom.
    destruct room as [|room]; [lia|].
    rewrite parse_call_args_eq. rewrite <- app_assoc. pstep.
    rewrite bind_eq, (peek_cparen_expr _ _ _ He). cbv beta iota. cbn [negb].
    pstep. rewrite bind_eq, IHe;
      [|lia|eapply follows_expr_more_args; eassumption].
    cbv beta iota. pstep. pstep.
    rewrite bind_eq, IHm; [|lia|rewrite length_app; simpl; lia|assumption].
    cbv beta iota. pstep. reflexivity.
  - (* no further argument *)
    intros room rounds acc rp rest _ Hf Hrp.
    destruct rounds as [|rounds]; [lia|]. rewrite parse_call_args_loop_S.
    simpl app. pstep. rewrite ret_eq. now rewrite app_nil_r.
  - (* "," and a further argument *)
    intros c ts e ts' es Hc He IHe Hm IHm room rounds acc rp rest Hroom Hf Hrp.
    simpl in Hf, Hroom. rewrite length_app in Hf.
    destruct rounds as [|rounds]; [lia|]. rewrite parse_call_args_loop_S.
    simpl app. rewrite <- app_assoc.
    pstep. pstep. rewrite bind_eq, IHe;
      [|lia|eapply follows_expr_more_args; eassumption].
    cbv beta iota. rewrite IHm by (lia || assumption).
    now rewrite <- app_assoc.
Qed.

(** With room for its body, a definition followed by any tokens is parsed
    to its tree, and the following tokens stay in the deque. *)
Lemma definition_complete room ts d rest :
  Grammar.definition int ts d ->
  room_needed d <= room ->
  parse_def int room (ts ++ rest) = Return (d, rest).
Proof.
  intros [dk name ps params body_ts body e Hd Hname Hps Hbody He] Hroom.
  simpl in Hroom. destruct room as [|room]; [lia|].
  unfold parse_def. simpl app. rewrite <- !app_assoc.
  pstep. pstep.
  rewrite bind_eq, (param_list_complete _ _ Hps). cbv beta iota.
  rewrite bind_eq.
  destruct expr_complete_mut as [Hexpr _].
  rewrite (Hexpr _ _ Hbody); [|lia|simpl; congruence].
  cbv beta iota. simpl app. pstep. reflexivity.
Qed.

End ParserFacts.

(** ** Where the scanner stops *)

Lemma first_match_none inp :
  no_rule_matches inp = true -> first_match TOKEN_TYPES inp = None.
Proof.
  unfold no_rule_matches. generalize TOKEN_TYPES.
  induction l as [|[ty p] l IH]; simpl; [reflexivity|].
  destruct (re_match p inp) as [[st en]|]; simpl; [discriminate|exact IH].
Qed.

Lemma get_one_token_none inp :
  no_rule_matches inp = true ->
  get_one_token inp = Raise (RuntimeError ("Unexpected token at: " ++ inp)).
Proof.
  intros H. now rewrite get_one_token_first_match, first_match_none.
Qed.

Lemma get_tokens_raises_at n :
  forall input rem,
    cursor_after n input = Some rem -> rem <> "" ->
    no_rule_matches rem = true ->
    get_tokens input = Raise (RuntimeError ("Unexpected token at: " ++ rem)).
Proof.
  induction n as [|n IH]; simpl; intros input rem Hc Hne Hno.
  - injection Hc as ->. rewrite get_tokens_nonempty by assumption.
    now rewrite get_one_token_none.
  - destruct (get_one_token input) as [[tok inp']| |] eqn:E; try discriminate.
    rewrite get_tokens_nonempty, E.
    + now rewrite (IH _ _ Hc Hne Hno).
    + intros ->. discriminate E.
Qed.

(** No rule matches a text that starts with whitespace. *)
Lemma no_rule_matches_space c s :
  is_space c = true -> no_rule_matches (String c s) = true.
Proof.
  intros Hc.
  assert (is_word c = false) as Hw.
  { destruct (is_word c) eqn:E; [|reflexivity].
    apply word_not_space in E. congruence. }
  assert (forall x, is_space x = false -> Ascii.eqb c x = false) as Hne.
  { intros x Hx. destruct (Ascii.eqb_spec c x); congruence. }
  unfold no_rule_matches, TOKEN_TYPES, re_match. cbn [forallb snd match_atoms].
  unfold at_boundary. cbn [word_before word_after xorb]. rewrite Hw.
  rewrite !Hne by reflexivity. reflexivity.
Qed.

Lemma leading_whitespace_rejected c s :
  is_space c = true ->
  get_tokens (String c s)
  = Raise (RuntimeError ("Unexpected token at: " ++ String c s)).
Proof.
  intros Hc. apply (get_tokens_raises_at 0); [reflexivity|discriminate|].
  now apply no_rule_matches_space.
Qed.

(** ** Taking a run of the parser apart *)

Lemma bind_inv {A B} (m : M A) (k : A -> M B) tokens r :
  bind m k tokens = Return r ->
  exists a tokens', m tokens = Return (a, tokens') /\ k a tokens' = Return r.
Proof.
  unfold bind. destruct (m tokens) as [[a ts]| |]; try discriminate. eauto.
Qed.

Lemma bind_fuel {A B} (m : M A) (k : A -> M B) tokens :
  m tokens <> OutOfFuel ->
  (forall a tokens', m tokens = Return (a, tokens') -> k a tokens' <> OutOfFuel) ->
  bind m k tokens <> OutOfFuel.
Proof.
  unfold bind. destruct (m tokens) as [[a ts]| |]; intros Hm Hk; auto.
  discriminate.
Qed.

Lemma bind_raise_inv {A B} (m : M A) (k : A -> M B) tokens e :
  bind m k tokens = Raise e ->
  m tokens = Raise e \/
  exists a tokens', m tokens = Return (a, tokens') /\ k a tokens' = Raise e.
Proof.
  unfold bind. destruct (m tokens) as [[a ts]| |]; intros H.
  - right. exists a, ts. auto.
  - injection H as ->. now left.
  - discriminate H.
Qed.

Lemma consume_inv_type ty tokens t tokens' :
  consume ty tokens = Return (t, tokens') ->
  tokens = t :: tokens' /\ type t = ty.
Proof.
  destruct tokens as [|x xs]; simpl; [discriminate|].
  destruct (String.eqb_spec (type x) ty); [|discriminate].
  now intros [= <- <-].
Qed.

Lemma peek_inv ty k tokens b tokens' :
  peek ty k tokens = Return (b, tokens') -> tokens' = tokens /\ k < List.length tokens.
Proof.
  unfold peek. destruct (nth_error tokens k) eqn:E; [|discriminate].
  intros [= _ <-]. split; [reflexivity|]. apply nth_error_Some. congruence.
Qed.

Lemma builtin_inv_value {A} (r : exn + A) tokens a tokens' :
  builtin r tokens = Return (a, tokens') -> r = inr a /\ tokens' = tokens.
Proof. destruct r; simpl; [discriminate|]. now intros [= <- <-]. Qed.

Lemma rounds_left_inv tokens rounds tokens' :
  rounds_left tokens = Return (rounds, tokens') ->
  rounds = S (List.length tokens) /\ tokens' = tokens.
Proof. now intros [= <- <-]. Qed.

Lemma consume_fuel ty tokens : consume ty tokens <> OutOfFuel.
Proof.
  destruct tokens as [|x xs]; simpl; [discriminate|].
  destruct (type x =? ty)%string; discriminate.
Qed.

Lemma peek_fuel ty k tokens : peek ty k tokens <> OutOfFuel.
Proof. unfold peek. destruct (nth_error tokens k); discriminate. Qed.

Lemma consume_raise int ty tokens e :
  consume ty tokens = Raise e -> parser_error int e.
Proof.
  unfold parser_error. destruct tokens as [|x xs]; simpl.
  - intros [= <-]. auto.
  - destruct (type x =? ty)%string; [discriminate|]. intros [= <-]. eauto 8.
Qed.

Lemma peek_raise int ty k tokens e :
  peek ty k tokens = Raise e -> parser_error int e.
Proof.
  unfold parser_error, peek. destruct (nth_error tokens k); [discriminate|].
  intros [= <-]. auto.
Qed.

Lemma builtin_raise int lexeme tokens e :
  builtin (int lexeme) tokens = Raise e -> parser_error int e.
Proof.
  unfold parser_error, builtin. destruct (int lexeme) eqn:E; [|discriminate].
  intros [= <-]. eauto 8.
Qed.

(** Break a successful run of a method body into its steps, keeping the
    kinds of the consumed tokens. *)
Ltac psteps H :=
  lazymatch type of H with
  | bind _ _ _ = Return _ =>
      let a := fresh "a" in
      let ts := fresh "ts" in
      let H1 := fresh "Hm" in
      apply bind_inv in H as (a & ts & H1 & H); psteps H1; psteps H
  | (if true then _ else _) _ = Return _ => cbv iota in H; psteps H
  | (if false then _ else _) _ = Return _ => cbv iota in H; psteps H
  | (if negb ?b then _ else _) _ = Return _ =>
      destruct b; cbn [negb] in H; psteps H
  | (if ?b then _ else _) _ = Return _ => destruct b; psteps H
  | (match ?r with O => _ | S _ => _ end) _ = Return _ =>
      first [is_var r; destruct r | cbv iota in H]; psteps H
  | raise _ _ = Return _ => discriminate H
  | ret _ _ = Return _ => unfold ret in H; injection H as ? ?; subst
  | consume _ _ = Return _ =>
      let Hty := fresh "Hty" in
      apply consume_inv_type in H as [? Hty]; subst
  | peek _ _ _ = Return _ => apply peek_inv in H as [? H]; subst
  | builtin _ _ = Return _ => apply builtin_inv_value in H as [H ?]; subst
  | rounds_left _ = Return _ => apply rounds_left_inv in H as [? ?]; subst
  | _ => idtac
  end.

(** Follow a raised exception down to the step that raised it. *)
Ltac praise int H :=
  lazymatch type of H with
  | bind _ _ _ = Raise _ =>
      let a := fresh "a" in
      let ts := fresh "ts" in
      let H1 := fresh "Hm" in
      apply bind_raise_inv in H as [H|(a & ts & H1 & H)];
      [praise int H|praise int H]
  | (if ?b then _ else _) _ = Raise _ => destruct b; praise int H
  | (match ?r with O => _ | S _ => _ end) _ = Raise _ =>
      first [is_var r; destruct r | cbv iota in H]; praise int H
  | ret _ _ = Raise _ => discriminate H
  | rounds_left _ = Raise _ => discriminate H
  | raise RecursionError _ = Raise _ =>
      unfold raise in H; injection H as <-;
      assert (parser_error int RecursionError) by (left; reflexivity)
  | consume _ _ = Raise _ => apply (consume_raise int) in H
  | peek _ _ _ = Raise _ => apply (peek_raise int) in H
  | builtin _ _ = Raise _ => apply (builtin_raise int) in H
  | _ => idtac
  end.

Section ParserRuns.

Variable int : string -> exn + Z.

Local Open Scope list_scope.

(** *** Every successful activation pops a token *)

Lemma parse_call_args_loop_shrinks (pe : M Node) :
  (forall ts n ts', pe ts = Return (n, ts') -> List.length ts' < List.length ts) ->
  forall rounds acc ts a ts',
    parse_call_args_loop pe rounds acc ts = Return (a, ts') ->
    List.length ts' <= List.length ts.
Proof.
  intros Hpe. induction rounds as [|rounds IH]; intros acc ts a ts' H;
    [discriminate|].
  rewrite parse_call_args_loop_S in H. psteps H; [|lia].
  match goal with
  | He : pe _ = Return _ |- _ => apply Hpe in He
  end.
  apply IH in H. simpl in *. lia.
Qed.

Lemma parse_shrinks room :
  (forall ts n ts', parse_expr int room ts = Return (n, ts') ->
                    List.length ts' < List.length ts) /\
  (forall ts n ts', parse_call int room ts = Return (n, ts') ->
                    List.length ts' < List.length ts) /\
  (forall ts a ts', parse_call_args int room ts = Return (a, ts') ->
                    List.length ts' < List.length ts).
Proof.
  induction room as [|room (IHe & IHc & IHa)]; repeat split; intros;
    match goal with
    | H : _ = Return _ |- _ =>
        first [ rewrite parse_expr_eq in H | rewrite parse_call_eq in H
              | rewrite parse_call_args_eq in H ];
        psteps H; try (unfold parse_variable_ref in H; psteps H)
    end;
    repeat match goal with
      | H : parse_expr _ _ _ = Return _ |- _ => apply IHe in H
      | H : parse_call _ _ _ = Return _ |- _ => apply IHc in H
      | H : parse_call_args _ _ _ = Return _ |- _ => apply IHa in H
      | H : parse_call_args_loop _ _ _ _ = Return _ |- _ =>
          apply (parse_call_args_loop_shrinks _ IHe) in H
      end;
    simpl in *; lia.
Qed.

Lemma parse_args_loop_shrinks rounds :
  forall acc ts a ts',
    parse_args_loop rounds acc ts = Return (a, ts') ->
    List.length ts' <= List.length ts.
Proof.
  induction rounds as [|rounds IH]; intros acc ts a ts' H; [discriminate|].
  rewrite parse_args_loop_S in H. psteps H; [|lia].
  apply IH in H. simpl; lia.
Qed.

(** *** The rounds given to the loops are never used up *)

Lemma parse_call_args_loop_rounds (pe : M Node) :
  (forall ts, pe ts <> OutOfFuel) ->
  (forall ts n ts', pe ts = Return (n, ts') -> List.length ts' < List.length ts) ->
  forall rounds acc ts,
    List.length ts < rounds ->
    parse_call_args_loop pe rounds acc ts <> OutOfFuel.
Proof.
  intros Hfuel Hpe. induction rounds as [|rounds IH]; intros acc ts Hr; [lia|].
  rewrite parse_call_args_loop_S.
  apply bind_fuel; [apply peek_fuel|]. intros b ts' Hp.
  apply peek_inv in Hp as [-> _]. destruct b; [|discriminate].
  apply bind_fuel; [apply consume_fuel|]. intros t ts' Hc.
  apply consume_inv_type in Hc as [-> _]. simpl in Hr.
  apply bind_fuel; [apply Hfuel|]. intros e ts1 He.
  apply Hpe in He. apply IH. lia.
Qed.

Lemma parse_rounds_enough room :
  (forall ts, parse_expr int room ts <> OutOfFuel) /\
  (forall ts, parse_call int room ts <> OutOfFuel) /\
  (forall ts, parse_call_args int room ts <> OutOfFuel).
Proof.
  induction room as [|room (IHe & IHc & IHa)]; repeat split; intros ts.
  all: first [ rewrite parse_expr_eq | rewrite parse_call_eq
             | rewrite parse_call_args_eq ].
  all: repeat
         first
           [ discriminate
           | apply consume_fuel
           | apply peek_fuel
           | apply IHe | apply IHc | apply IHa
           | match goal with
             | |- bind _ _ _ <> OutOfFuel =>
                 apply bind_fuel; [|let a := fresh "a" in
                                    let ts' := fresh "ts" in
                                    let H := fresh "Hstep" in
                                    intros a ts' H]
             | |- (if ?b then _ else _) _ <> OutOfFuel => destruct b
             | |- builtin ?r _ <> OutOfFuel => destruct r
             | |- parse_variable_ref _ <> OutOfFuel => unfold parse_variable_ref
             | |- parse_call_args_loop _ _ _ _ <> OutOfFuel =>
                 apply parse_call_args_loop_rounds;
                 [exact IHe|exact (proj1 (parse_shrinks room))|]
             | H : rounds_left _ = Return _ |- _ =>
                 apply rounds_left_inv in H as [-> ->]
             | |- _ < S _ => lia
             end ].
Qed.

Lemma parse_args_loop_rounds rounds :
  forall acc ts,
    List.length ts < rounds -> parse_args_loop rounds acc ts <> OutOfFuel.
Proof.
  induction rounds as [|rounds IH]; intros acc ts Hf; [lia|].
  rewrite parse_args_loop_S.
  apply bind_fuel; [apply peek_fuel|]. intros b ts' Hp.
  apply peek_inv in Hp as [-> _]. destruct b; [|discriminate].
  apply bind_fuel; [apply consume_fuel|]. intros t ts' Hc.
  apply consume_inv_type in Hc as [-> _].
  apply bind_fuel; [apply consume_fuel|]. intros t' ts'' Hc.
  apply consume_inv_type in Hc as [-> _]. apply IH. simpl in Hf. lia.
Qed.

Lemma parse_args_rounds ts : parse_args ts <> OutOfFuel.
Proof.
  unfold parse_args.
  apply bind_fuel; [apply consume_fuel|]. intros lp ts1 _.
  apply bind_fuel; [apply peek_fuel|]. intros b ts2 _.
  apply bind_fuel.
  - destruct b; [|discriminate].
    apply bind_fuel; [apply consume_fuel|]. intros x ts3 _.
    apply bind_fuel; [discriminate|]. intros r ts4 Hr.
    apply rounds_left_inv in Hr as [-> ->].
    apply parse_args_loop_rounds. lia.
  - intros args ts3 _. apply bind_fuel; [apply consume_fuel|]. discriminate.
Qed.

Lemma parse_def_rounds room ts : parse_def int room ts <> OutOfFuel.
Proof.
  unfold parse_def.
  apply bind_fuel; [apply consume_fuel|]. intros t ts1 _.
  apply bind_fuel; [apply consume_fuel|]. intros t' ts2 _.
  apply bind_fuel;
    [destruct room; [discriminate|apply parse_args_rounds]|].
  intros args ts3 _.
  apply bind_fuel;
    [destruct room; [discriminate|apply (proj1 (parse_rounds_enough room))]|].
  intros body ts4 _. apply bind_fuel; [apply consume_fuel|]. discriminate.
Qed.

Lemma parse_run_total tokens : parse_run int tokens <> OutOfFuel.
Proof. apply parse_def_rounds. Qed.

Lemma parse_total tokens : parse int tokens <> OutOfFuel.
Proof.
  unfold parse. pose proof (parse_run_total tokens) as H.
  destruct (parse_run int tokens) as [[n ts]| |]; congruence.
Qed.

End ParserRuns.


(** The nested calls are derived by the grammar, at every depth. *)
Lemma nested_call_derivable depth :
  Grammar.expr int_of_digits (nested_call_tokens depth) (nested_call_node depth).
Proof.
  induction depth as [|depth IH]; simpl.
  - apply Grammar.expr_integer; reflexivity.
  - apply (Grammar.expr_call int_of_digits (tk "_identifier" "f")
             (tk "_oparen" "(") (nested_call_tokens depth) (tk "_cparen" ")")
             [nested_call_node depth]); try reflexivity.
    rewrite <- (app_nil_r (nested_call_tokens depth)).
    apply Grammar.arg_list_some; [exact IH|apply Grammar.more_args_done].
Qed.

Lemma nested_definition_derivable depth :
  Grammar.definition int_of_digits
    (nested_definition_tokens depth) (nested_definition_node depth).
Proof.
  apply (Grammar.definition_intro int_of_digits
           (tk "_def" "def") (tk "_identifier" "g")
           [tk "_oparen" "("; tk "_cparen" ")"] []
           (nested_call_tokens depth) (nested_call_node depth)
           (tk "_end" "end")); try reflexivity.
  - apply Grammar.param_list_empty; reflexivity.
  - apply nested_call_derivable.
Qed.

(** * The statements of the specification *)

(** C1.  Scanning and then parsing [def add(a, b) add(a, b) end] succeeds
    with the definition [add], parameters [a] and [b], whose body is the
    call of [add] on the variable references [a] and [b]. *)
Theorem C1_example_add_definition :
  forall int,
    front_end int "def add(a, b) add(a, b) end"
    = Return (DefNode "add"
                (CallNode "add" [VarRefNode "a"; VarRefNode "b"])
                ["a"; "b"]).
Proof. intros int. reflexivity. Qed.




(** C3.  The scanner strips whitespace only after it has produced a token:
    a text with a leading space is rejected at its first character, while
    the same text without the space is scanned in full. *)
Theorem C3_leading_space_is_rejected :
  get_tokens " def f() 1 end"
  = Raise (RuntimeError "Unexpected token at:  def f() 1 end") /\
  get_tokens "def f() 1 end"
  = Return [tk "_def" "def"; tk "_identifier" "f"; tk "_oparen" "(";
            tk "_cparen" ")"; tk "_integer" "1"; tk "_end" "end"].
Proof. split; reflexivity. Qed.

(** C4, as stated: parsing [def f], where the parameter list is still
    expected and no token is left, does not fail with the error that names
    the expected kind; it fails with the deque's [IndexError]. *)
Lemma C4_counterexample_exhausted :
  parse int_of_digits [tk "_def" "def"; tk "_identifier" "f"]
  = Raise (IndexError "pop from an empty deque").
Proof. reflexivity. Qed.

(** C4, amended.  For every expected kind, [consume] on an exhausted
    sequence raises [IndexError] with the deque's own message, which names
    no kind; on a non-empty sequence it returns the front token when its
    kind is the expected one, and otherwise raises the [RuntimeError]
    naming the expected and the actual kind. *)
Theorem C4_consume_on_exhausted_sequence :
  forall expected_type,
    consume expected_type [] = Raise (IndexError "pop from an empty deque") /\
    forall token tokens,
      consume expected_type (token :: tokens)
      = if (type token =? expected_type)%string then Return (token, tokens)
        else Raise (RuntimeError ("Expected token_type: " ++ expected_type
                                  ++ ", got: " ++ type token)).
Proof. intros expected_type. split; reflexivity. Qed.

(** C5.  The rules are tried in the order of the table, the two keyword
    rules before the identifier rule, and the text [end] is scanned as the
    single token of kind [_end]. *)
Theorem C5_end_is_a_keyword :
  map fst TOKEN_TYPES
  = ["_def"; "_end"; "_identifier"; "_integer"; "_oparen"; "_cparen"; "_comma"]
  /\ get_tokens "end" = Return [tk "_end" "end"].
Proof. split; reflexivity. Qed.

(** C6.  The [_end] rule needs no word boundary after [end]: on every text
    that starts with [end] the scanner's first token is [_end] with lexeme
    [end] and the cursor stays right behind it, so [endpoint] becomes the
    keyword followed by the identifier [point], and no text that starts
    with [end] is scanned with another first token. *)
Theorem C6_end_prefix_is_split_off :
  (forall rest,
     get_one_token ("end" ++ rest) = Return (tk "_end" "end", rest)) /\
  get_tokens "endpoint" = Return [tk "_end" "end"; tk "_identifier" "point"] /\
  (forall rest,
     match get_tokens ("end" ++ rest) with
     | Return tokens => hd_error tokens = Some (tk "_end" "end")
     | _ => True
     end).
Proof.
  assert (forall rest,
            get_one_token ("end" ++ rest) = Return (tk "_end" "end", rest))
    as Hend by (intros rest; reflexivity).
  split; [exact Hend|]. split; [reflexivity|].
  intros rest. change ("end" ++ rest) with (String "e" ("nd" ++ rest)).
  rewrite get_tokens_cons.
  change (String "e" ("nd" ++ rest)) with ("end" ++ rest). rewrite Hend.
  now destruct (get_tokens (strip rest)).
Qed.

(** C7.  Whenever the scanner's cursor reaches a non-empty text that no
    rule matches, scanning fails with the [RuntimeError] whose message
    carries that remaining text. *)
Theorem C7_unmatched_text_is_reported :
  forall input n rem,
    cursor_after n input = Some rem ->
    rem <> "" ->
    no_rule_matches rem = true ->
    get_tokens input = Raise (RuntimeError ("Unexpected token at: " ++ rem)).
Proof. intros input n rem. apply get_tokens_raises_at. Qed.

Lemma C7_unmatched_text_is_reported_witness :
  cursor_after 4 "def f() $ end" = Some "$ end" /\
  "$ end" <> "" /\
  no_rule_matches "$ end" = true /\
  get_tokens "def f() $ end" = Raise (RuntimeError "Unexpected token at: $ end").
Proof.
  split; [reflexivity|]. split; [discriminate|]. split; [reflexivity|].
  apply (C7_unmatched_text_is_reported "def f() $ end" 4 "$ end");
    [reflexivity|discriminate|reflexivity].
Defined.

(** C8.  On [def f( 1 end] the parser fails while it expects the closing
    parenthesis of the parameter list and finds the integer. *)
Theorem C8_missing_closing_parenthesis :
  forall int,
    get_tokens "def f( 1 end"
    = Return [tk "_def" "def"; tk "_identifier" "f"; tk "_oparen" "(";
              tk "_integer" "1"; tk "_end" "end"] /\
    front_end int "def f( 1 end"
    = Raise (RuntimeError "Expected token_type: _cparen, got: _integer").
Proof. intros int. split; reflexivity. Qed.

(** C9.  When a text is scanned into a token sequence, writing the lexemes
    out with single spaces between them and scanning again gives the same
    token sequence, hence the same result of parsing: the same tree for a
    text that conforms to the grammar. *)
Theorem C9_rescanning_the_lexemes :
  forall int input tokens,
    get_tokens input = Return tokens ->
    get_tokens (join_lexemes tokens) = Return tokens /\
    front_end int (join_lexemes tokens) = front_end int input.
Proof.
  intros int input tokens H.
  assert (get_tokens (join_lexemes tokens) = Return tokens) as Hj
    by (apply get_tokens_join; eapply get_tokens_lexemes; exact H).
  split; [exact Hj|]. unfold front_end. now rewrite Hj, H.
Qed.

Lemma C9_rescanning_the_lexemes_witness :
  get_tokens "def add(a, b) add(a, b) end"
  = Return [tk "_def" "def"; tk "_identifier" "add"; tk "_oparen" "(";
            tk "_identifier" "a"; tk "_comma" ","; tk "_identifier" "b";
            tk "_cparen" ")"; tk "_identifier" "add"; tk "_oparen" "(";
            tk "_identifier" "a"; tk "_comma" ","; tk "_identifier" "b";
            tk "_cparen" ")"; tk "_end" "end"] /\
  front_end int_of_digits "def add ( a , b ) add ( a , b ) end"
  = front_end int_of_digits "def add(a, b) add(a, b) end".
Proof.
  split; [reflexivity|].
  exact (proj2 (C9_rescanning_the_lexemes int_of_digits
                  "def add(a, b) add(a, b) end" _ eq_refl)).
Defined.

(** C10, as stated: the definition of [g] whose body is a call nested
    400 deep is derived by the grammar, and [parse] does not return its
    tree: the descent runs into the interpreter's recursion limit. *)
Lemma C10_counterexample_deep_nesting :
  Grammar.definition int_of_digits
    (nested_definition_tokens 400) (nested_definition_node 400) /\
  parse int_of_digits (nested_definition_tokens 400) = Raise RecursionError.
Proof.
  split; [apply nested_definition_derivable|].
  vm_compute. reflexivity.
Qed.

(** C10, amended.  [parse] does not ask for the sequence to be used up: on a
    sequence that starts with the tokens of a definition derived by the
    grammar, nested no deeper than the recursion limit leaves room for, it
    returns the tree of that definition and leaves every following token
    in the deque. *)
Theorem C10_tokens_after_the_definition :
  forall int tokens node rest,
    Grammar.definition int tokens node ->
    room_needed node <= recursion_budget ->
    parse_run int (tokens ++ rest)%list = Return (node, rest) /\
    parse int (tokens ++ rest)%list = Return node.
Proof.
  intros int tokens node rest H Hroom.
  pose proof (definition_complete int _ _ _ rest H Hroom) as Hrun.
  fold (parse_run int (tokens ++ rest)%list) in Hrun.
  split; [exact Hrun|]. unfold parse. now rewrite Hrun.
Qed.

Lemma C10_tokens_after_the_definition_witness :
  Grammar.definition int_of_digits
    [tk "_def" "def"; tk "_identifier" "one"; tk "_oparen" "(";
     tk "_cparen" ")"; tk "_integer" "1"; tk "_end" "end"]
    (DefNode "one" (IntegerNode 1) []) /\
  room_needed (DefNode "one" (IntegerNode 1) []) <= recursion_budget /\
  parse int_of_digits
    [tk "_def" "def"; tk "_identifier" "one"; tk "_oparen" "(";
     tk "_cparen" ")"; tk "_integer" "1"; tk "_end" "end";
     tk "_def" "def"; tk "_identifier" "two"; tk "_oparen" "(";
     tk "_cparen" ")"; tk "_integer" "2"; tk "_end" "end"]
  = Return (DefNode "one" (IntegerNode 1) []).
Proof.
  assert (Grammar.definition int_of_digits
            [tk "_def" "def"; tk "_identifier" "one"; tk "_oparen" "(";
             tk "_cparen" ")"; tk "_integer" "1"; tk "_end" "end"]
            (DefNode "one" (IntegerNode 1) [])) as Hdef.
  { apply (Grammar.definition_intro int_of_digits
             (tk "_def" "def") (tk "_identifier" "one")
             [tk "_oparen" "("; tk "_cparen" ")"] []
             [tk "_integer" "1"] (IntegerNode 1) (tk "_end" "end"));
      try reflexivity.
    - apply Grammar.param_list_empty; reflexivity.
    - apply Grammar.expr_integer; reflexivity. }
  assert (room_needed (DefNode "one" (IntegerNode 1) []) <= recursion_budget)
    as Hroom by (vm_compute; lia).
  split; [exact Hdef|]. split; [exact Hroom|].
  exact (proj2 (C10_tokens_after_the_definition int_of_digits _ _
                  [tk "_def" "def"; tk "_identifier" "two"; tk "_oparen" "(";
                   tk "_cparen" ")"; tk "_integer" "2"; tk "_end" "end"]
                  Hdef Hroom)).
Defined.

(** * Further properties of the scanner *)

Lemma String_neq_empty c s : String c s <> "".
Proof. discriminate. Qed.

(** Induction over the rounds of a successful scan. *)
Lemma get_tokens_rounds (P : string -> list Token -> Prop) :
  P "" [] ->
  (forall inp tok inp' ts,
     inp <> "" ->
     get_one_token inp = Return (tok, inp') ->
     get_tokens (strip inp') = Return ts ->
     P (strip inp') ts -> P inp (tok :: ts)) ->
  forall inp ts, get_tokens inp = Return ts -> P inp ts.
Proof.
  intros Hnil Hstep inp.
  remember (String.length inp) as n eqn:En. revert inp En.
  induction n as [n IHn] using lt_wf_ind. intros inp En ts.
  destruct inp as [|c inp]; [intros [= <-]; exact Hnil|].
  rewrite get_tokens_cons.
  destruct (get_one_token (String c inp)) as [[tok inp']| |] eqn:E;
    try discriminate.
  destruct (get_tokens (strip inp')) as [ts'| |] eqn:E'; try discriminate.
  intros [= <-]. apply (Hstep _ _ _ _ (String_neq_empty c inp) E E').
  pose proof (get_one_token_shrinks _ _ _ E) as Hlt.
  pose proof (length_strip inp') as Hs.
  eapply IHn; [|reflexivity|exact E']. simpl in En, Hlt. lia.
Qed.

Lemma all_chars_nonempty_word cls v :
  v <> "" -> all_chars cls v = true ->
  negb (v =? "")%string && all_chars cls v = true.
Proof.
  intros Hne Hv. rewrite Hv. destruct v; [congruence|reflexivity].
Qed.

Lemma get_one_token_shape inp tok rest :
  get_one_token inp = Return (tok, rest) -> token_shape tok = true.
Proof.
  rewrite get_one_token_first_match.
  destruct (first_match TOKEN_TYPES inp) as [[[ty st] en]|] eqn:E; [|discriminate].
  cbv beta iota. intros [= <- _].
  apply first_match_In in E as (p & Hin & Hm).
  apply re_match_span in Hm as [-> Hm]. simpl in Hin.
  unfold slice. simpl drop. rewrite Nat.sub_0_r.
  repeat (destruct Hin as [E|Hin]; [injection E as <- <-|]); [..|destruct Hin].
  - apply def_rule_spec in Hm as (rest' & -> & -> & _). reflexivity.
  - apply end_rule_spec in Hm as (rest' & -> & ->). reflexivity.
  - apply run_rule_spec in Hm as (v & rest' & -> & -> & Hne & Hv & _);
      [|exact letter_is_word].
    rewrite take_append. unfold token_shape. simpl.
    now apply all_chars_nonempty_word.
  - apply run_rule_spec in Hm as (v & rest' & -> & -> & Hne & Hv & _);
      [|exact digit_is_word].
    rewrite take_append. unfold token_shape. simpl.
    now apply all_chars_nonempty_word.
  - apply lit_rule_spec in Hm as (rest' & -> & ->). reflexivity.
  - apply lit_rule_spec in Hm as (rest' & -> & ->). reflexivity.
  - apply lit_rule_spec in Hm as (rest' & -> & ->). reflexivity.
Qed.

(** X1.  Every token of a successful scan carries a lexeme of the shape
    its rule allows: [def], [end], a non-empty run of ASCII letters, a
    non-empty run of decimal digits, or the punctuation character. *)
Theorem X1_tokens_have_the_shape_of_their_rule :
  forall input tokens,
    get_tokens input = Return tokens ->
    forallb token_shape tokens = true.
Proof.
  apply get_tokens_rounds; [reflexivity|].
  intros inp tok inp' ts _ Htok _ IH. simpl.
  now rewrite (get_one_token_shape _ _ _ Htok), IH.
Qed.

Lemma X1_tokens_have_the_shape_of_their_rule_witness :
  get_tokens "def f(x) g(12, x) end"
  = Return [tk "_def" "def"; tk "_identifier" "f"; tk "_oparen" "(";
            tk "_identifier" "x"; tk "_cparen" ")"; tk "_identifier" "g";
            tk "_oparen" "("; tk "_integer" "12"; tk "_comma" ",";
            tk "_identifier" "x"; tk "_cparen" ")"; tk "_end" "end"] /\
  forallb token_shape
    [tk "_def" "def"; tk "_identifier" "f"; tk "_oparen" "(";
     tk "_identifier" "x"; tk "_cparen" ")"; tk "_identifier" "g";
     tk "_oparen" "("; tk "_integer" "12"; tk "_comma" ",";
     tk "_identifier" "x"; tk "_cparen" ")"; tk "_end" "end"] = true.
Proof.
  split; [reflexivity|].
  exact (X1_tokens_have_the_shape_of_their_rule
           "def f(x) g(12, x) end" _ eq_refl).
Defined.

Lemma filter_chars_append p a b :
  filter_chars p (a ++ b) = filter_chars p a ++ filter_chars p b.
Proof.
  induction a as [|c a IH]; simpl; [reflexivity|].
  destruct (p c); simpl; now rewrite IH.
Qed.

Lemma filter_chars_all p s : all_chars p s = true -> filter_chars p s = s.
Proof.
  induction s as [|c s IH]; simpl; [reflexivity|].
  intros H. apply andb_prop in H as [Hc Hs]. now rewrite Hc, IH.
Qed.

Lemma without_whitespace_lstrip s :
  without_whitespace (lstrip s) = without_whitespace s.
Proof.
  unfold without_whitespace. induction s as [|c s IH]; simpl; [reflexivity|].
  destruct (is_space c) eqn:Ec; simpl; [exact IH|now rewrite Ec].
Qed.

Lemma without_whitespace_rstrip s :
  without_whitespace (rstrip s) = without_whitespace s.
Proof.
  unfold without_whitespace. induction s as [|c s IH]; simpl; [reflexivity|].
  destruct (rstrip s) as [|c' r]; destruct (is_space c) eqn:Ec; simpl;
    rewrite ?Ec; simpl; simpl in IH; now rewrite <- IH.
Qed.

Lemma without_whitespace_strip s :
  without_whitespace (strip s) = without_whitespace s.
Proof.
  unfold strip. now rewrite without_whitespace_rstrip, without_whitespace_lstrip.
Qed.

Lemma concat_lexemes_cons tok ts :
  concat_lexemes (tok :: ts) = val tok ++ concat_lexemes ts.
Proof.
  unfold concat_lexemes. destruct ts as [|t ts]; simpl;
    [now rewrite append_nil_r|reflexivity].
Qed.

(** X2.  A successful scan drops whitespace and nothing else: the lexemes
    written one after the other are the text without its whitespace
    characters. *)
Theorem X2_scanning_drops_only_whitespace :
  forall input tokens,
    get_tokens input = Return tokens ->
    concat_lexemes tokens = without_whitespace input.
Proof.
  apply get_tokens_rounds; [reflexivity|].
  intros inp tok inp' ts _ Htok _ IH.
  apply get_one_token_spec in Htok as [-> [_ Hclean]].
  rewrite concat_lexemes_cons, IH, without_whitespace_strip.
  unfold without_whitespace at 2. rewrite filter_chars_append.
  now rewrite (filter_chars_all _ _ Hclean).
Qed.

Lemma X2_scanning_drops_only_whitespace_witness :
  get_tokens "def  f ( a,b ) g(a ,  12)   end  "
  = Return [tk "_def" "def"; tk "_identifier" "f"; tk "_oparen" "(";
            tk "_identifier" "a"; tk "_comma" ","; tk "_identifier" "b";
            tk "_cparen" ")"; tk "_identifier" "g"; tk "_oparen" "(";
            tk "_identifier" "a"; tk "_comma" ","; tk "_integer" "12";
            tk "_cparen" ")"; tk "_end" "end"] /\
  concat_lexemes
    [tk "_def" "def"; tk "_identifier" "f"; tk "_oparen" "(";
     tk "_identifier" "a"; tk "_comma" ","; tk "_identifier" "b";
     tk "_cparen" ")"; tk "_identifier" "g"; tk "_oparen" "(";
     tk "_identifier" "a"; tk "_comma" ","; tk "_integer" "12";
     tk "_cparen" ")"; tk "_end" "end"]
  = without_whitespace "def  f ( a,b ) g(a ,  12)   end  ".
Proof.
  split; [reflexivity|].
  exact (X2_scanning_drops_only_whitespace
           "def  f ( a,b ) g(a ,  12)   end  " _ eq_refl).
Defined.

(** X3.  A text that starts with a whitespace character is rejected at
    that character, whatever follows: the error message carries the whole
    text.  This includes every text made of whitespace only. *)
Theorem X3_leading_whitespace_is_an_error :
  forall c rest,
    is_space c = true ->
    get_tokens (String c rest)
    = Raise (RuntimeError ("Unexpected token at: " ++ String c rest)).
Proof. intros c rest Hc. now apply leading_whitespace_rejected. Qed.

Lemma X3_leading_whitespace_is_an_error_witness :
  is_space "010" = true /\
  get_tokens (String "010" "def f() 1 end")
  = Raise (RuntimeError ("Unexpected token at: "
                         ++ String "010" "def f() 1 end")).
Proof.
  split; [reflexivity|].
  exact (X3_leading_whitespace_is_an_error "010" "def f() 1 end" eq_refl).
Defined.

(** ** Trailing whitespace *)

Lemma all_space_lstrip ws : all_chars is_space ws = true -> lstrip ws = "".
Proof.
  induction ws as [|c ws IH]; simpl; [reflexivity|].
  intros H. apply andb_prop in H as [Hc Hws]. rewrite Hc. auto.
Qed.

Lemma all_space_rstrip ws : all_chars is_space ws = true -> rstrip ws = "".
Proof.
  induction ws as [|c ws IH]; simpl; [reflexivity|].
  intros H. apply andb_prop in H as [Hc Hws]. now rewrite IH, Hc.
Qed.

Lemma rstrip_append_space x ws :
  all_chars is_space ws = true -> rstrip (x ++ ws) = rstrip x.
Proof.
  intros Hws. induction x as [|c x IH]; simpl.
  - now apply all_space_rstrip.
  - fold (rstrip (x ++ ws)). now rewrite IH.
Qed.

Lemma strip_append_space x ws :
  all_chars is_space ws = true -> strip (x ++ ws) = strip x.
Proof.
  intros Hws. unfold strip. induction x as [|c x IH]; simpl.
  - now rewrite all_space_lstrip.
  - destruct (is_space c); [exact IH|].
    change (String c (x ++ ws)) with (String c x ++ ws).
    now apply rstrip_append_space.
Qed.

Lemma space_not_word h : is_space h = true -> is_word h = false.
Proof.
  intros H. destruct (is_word h) eqn:E; [|reflexivity].
  apply word_not_space in E. congruence.
Qed.

Lemma rules_blind_to_whitespace h ty p :
  is_space h = true -> In (ty, p) TOKEN_TYPES -> blind_to h p = true.
Proof.
  intros Hh Hin. pose proof (space_not_word _ Hh) as Hw.
  assert (forall c, is_space c = false -> Ascii.eqb c h = false) as Hne.
  { intros c Hc. destruct (Ascii.eqb_spec c h); congruence. }
  simpl in Hin.
  repeat (destruct Hin as [E|Hin]; [injection E as <- <-|]); [..|destruct Hin];
    unfold blind_to; cbn [forallb];
    rewrite ?Hw, ?(not_word_not_letter _ Hw), ?(not_word_not_digit _ Hw),
      ?(Hne "d"%char), ?(Hne "e"%char), ?(Hne "f"%char), ?(Hne "n"%char),
      ?(Hne "("%char), ?(Hne ")"%char), ?(Hne ","%char);
    reflexivity.
Qed.

Lemma take_append_le n s t :
  n <= String.length s -> take n (s ++ t) = take n s.
Proof.
  revert s. induction n as [|n IH]; intros [|c s] H; simpl in *;
    try reflexivity; try lia.
  rewrite IH by lia. reflexivity.
Qed.

Lemma drop_append_le n s t :
  n <= String.length s -> drop n (s ++ t) = drop n s ++ t.
Proof.
  revert s. induction n as [|n IH]; intros [|c s] H; simpl in *;
    try reflexivity; try lia.
  apply IH. lia.
Qed.

(** The first token is the same when whitespace is added at the end. *)
Lemma get_one_token_append_space s ws tok rest :
  all_chars is_space ws = true ->
  get_one_token s = Return (tok, rest) ->
  get_one_token (s ++ ws) = Return (tok, rest ++ ws).
Proof.
  intros Hws. destruct ws as [|h ws]; [now rewrite !append_nil_r|].
  simpl in Hws. apply andb_prop in Hws as [Hh _].
  rewrite !get_one_token_first_match.
  rewrite (first_match_ext _ (s ++ String h ws) s).
  2:{ intros ty p Hin. apply re_match_blind.
      eapply rules_blind_to_whitespace; eassumption. }
  destruct (first_match TOKEN_TYPES s) as [[[ty st] en]|] eqn:E; [|discriminate].
  apply first_match_In in E as (p & _ & Hm).
  apply re_match_span in Hm as [-> Hm]. apply match_atoms_le in Hm.
  unfold slice, slice_from. simpl drop. rewrite Nat.sub_0_r.
  intros [= <- <-].
  now rewrite take_append_le, drop_append_le by assumption.
Qed.

(** X4.  Whitespace at the end of a non-empty text does not change the
    tokens: the final newline of a source file is harmless. *)
Theorem X4_trailing_whitespace_is_ignored :
  forall input ws tokens,
    input <> "" ->
    all_chars is_space ws = true ->
    get_tokens input = Return tokens ->
    get_tokens (input ++ ws) = Return tokens.
Proof.
  intros input ws tokens Hne Hws H.
  rewrite get_tokens_nonempty in H by assumption.
  rewrite get_tokens_nonempty by (destruct input; [congruence|discriminate]).
  destruct (get_one_token input) as [[tok rest]| |] eqn:E; try discriminate.
  rewrite (get_one_token_append_space _ _ _ _ Hws E).
  now rewrite strip_append_space.
Qed.

Lemma X4_trailing_whitespace_is_ignored_witness :
  "def one() 1 end" <> "" /\
  all_chars is_space (String " " (String "010" "")) = true /\
  get_tokens ("def one() 1 end" ++ String " " (String "010" ""))
  = Return [tk "_def" "def"; tk "_identifier" "one"; tk "_oparen" "(";
            tk "_cparen" ")"; tk "_integer" "1"; tk "_end" "end"].
Proof.
  split; [discriminate|]. split; [reflexivity|].
  apply (X4_trailing_whitespace_is_ignored "def one() 1 end");
    [discriminate|reflexivity|reflexivity].
Defined.

(** ** How a scan can end *)

Lemma first_match_none_inv inp :
  first_match TOKEN_TYPES inp = None -> no_rule_matches inp = true.
Proof.
  unfold no_rule_matches. generalize TOKEN_TYPES.
  induction l as [|[ty p] l IH]; simpl; [reflexivity|].
  destruct (re_match p inp) as [[st en]|]; simpl; [discriminate|exact IH].
Qed.

(** X5.  The scanning loop terminates on every text, and it ends in one
    of two ways only: it returns the tokens, or its cursor has reached a
    text that no rule matches and it raises the [RuntimeError] carrying
    that text. *)
Theorem X5_scan_returns_or_reports_the_cursor :
  forall input,
    (exists tokens, get_tokens input = Return tokens) \/
    (exists n rem,
       cursor_after n input = Some rem /\
       no_rule_matches rem = true /\
       get_tokens input
       = Raise (RuntimeError ("Unexpected token at: " ++ rem))).
Proof.
  intros input. remember (String.length input) as len eqn:El.
  revert input El. induction len as [len IH] using lt_wf_ind.
  intros [|c input] El; [left; exists []; reflexivity|].
  rewrite get_tokens_cons.
  destruct (get_one_token (String c input)) as [[tok inp']| |] eqn:E.
  - pose proof (get_one_token_shrinks _ _ _ E) as Hlt.
    pose proof (length_strip inp') as Hs.
    destruct (IH (String.length (strip inp'))
                ltac:(simpl in El, Hlt; lia) _ eq_refl)
      as [[ts Hts]|(n & rem & Hc & Hno & Hr)].
    + left. exists (tok :: ts). now rewrite Hts.
    + right. exists (S n), rem. simpl cursor_after. rewrite E, Hr. auto.
  - right. exists 0, (String c input).
    rewrite get_one_token_first_match in E.
    destruct (first_match TOKEN_TYPES (String c input)) as [[[ty st] en]|] eqn:Em;
      [discriminate|].
    injection E as <-. repeat split. now apply first_match_none_inv.
  - rewrite get_one_token_first_match in E.
    destruct (first_match TOKEN_TYPES (String c input)) as [[[ty st] en]|];
      discriminate.
Qed.

(** ** Runs of letters and digits *)

(** The run is matched whole, whatever non-word text follows. *)
Lemma match_plus_run cls k v rest :
  (forall c, cls c = true -> is_word c = true) ->
  (forall prev s', k prev s' = if at_boundary prev s' then Some 0 else None) ->
  v <> "" -> all_chars cls v = true -> word_after rest = false ->
  match_plus cls k (v ++ rest) = Some (String.length v).
Proof.
  intros Hw Hk. induction v as [|c v IH]; intros Hne Hv Hr; [congruence|].
  simpl in Hv. apply andb_prop in Hv as [Hc Hv]. simpl. rewrite Hc.
  destruct v as [|c' v].
  - simpl. assert (match_plus cls k rest = None) as ->.
    { destruct rest as [|h rest]; simpl; [reflexivity|].
      destruct (cls h) eqn:Eh; [|reflexivity].
      apply Hw in Eh. simpl in Hr. congruence. }
    rewrite Hk. unfold at_boundary. simpl. now rewrite (Hw _ Hc), Hr.
  - rewrite IH; [reflexivity|discriminate|assumption|assumption].
Qed.

(** No part of the run is matched when a word character outside the
    class follows it directly. *)
Lemma match_plus_blocked cls k v c rest :
  (forall x, cls x = true -> is_word x = true) ->
  (forall prev s', k prev s' = if at_boundary prev s' then Some 0 else None) ->
  v <> "" -> all_chars cls v = true ->
  is_word c = true -> cls c = false ->
  match_plus cls k (v ++ String c rest) = None.
Proof.
  intros Hw Hk. induction v as [|x v IH]; intros Hne Hv Hc Hcls; [congruence|].
  simpl in Hv. apply andb_prop in Hv as [Hx Hv]. simpl. rewrite Hx.
  destruct v as [|x' v].
  - simpl. rewrite Hcls, Hk. unfold at_boundary. simpl.
    now rewrite (Hw _ Hx), Hc.
  - rewrite IH by (assumption || discriminate).
    rewrite Hk. unfold at_boundary. simpl in *.
    apply andb_prop in Hv as [Hx' _]. now rewrite (Hw _ Hx), (Hw _ Hx').
Qed.

Lemma digit_not_letter c : is_digit c = true -> is_letter c = false.
Proof.
  destruct c as [[] [] [] [] [] [] [] []]; vm_compute; congruence.
Qed.

Lemma run_rule_unfold cls s :
  re_match [Boundary; Plus cls; Boundary] s
  = option_map (fun en => (0, en))
      (if at_boundary None s
       then match_plus cls (match_atoms [Boundary]) s
       else None).
Proof. reflexivity. Qed.

Lemma lit_rule_mismatch x c s :
  Ascii.eqb x c = false -> re_match [Lit c] (String x s) = None.
Proof. intros H. unfold re_match. simpl. now rewrite H. Qed.

Lemma keyword_rule_mismatch x c p s :
  Ascii.eqb x c = false -> re_match (Boundary :: Lit c :: p) (String x s) = None.
Proof.
  intros H. unfold re_match. cbn [match_atoms]. rewrite H.
  now destruct (at_boundary None (String x s)).
Qed.

Lemma no_rule_matches_digits_then_word d c rest :
  d <> "" -> all_chars is_digit d = true ->
  is_word c = true -> is_digit c = false ->
  no_rule_matches (d ++ String c rest) = true.
Proof.
  intros Hne Hd Hc Hcd.
  pose proof (match_plus_blocked is_digit (match_atoms [Boundary]) d c rest
                digit_is_word ltac:(reflexivity) Hne Hd Hc Hcd) as Hint.
  destruct d as [|x d]; [congruence|]. simpl in Hd.
  apply andb_prop in Hd as [Hx _].
  assert (forall y, is_digit y = false -> Ascii.eqb x y = false) as Hxy.
  { intros y Hy. destruct (Ascii.eqb_spec x y); congruence. }
  change (String x d ++ String c rest) with (String x (d ++ String c rest)) in *.
  unfold no_rule_matches, TOKEN_TYPES. cbn [forallb snd].
  rewrite !keyword_rule_mismatch, !lit_rule_mismatch by (apply Hxy; reflexivity).
  rewrite !run_rule_unfold, Hint.
  cbn [match_plus]. rewrite (digit_not_letter _ Hx).
  now destruct (at_boundary None (String x (d ++ String c rest))).
Qed.

(** X6.  Digits directly followed by a letter, an underscore or another
    word character that is not a digit are not split into an integer and
    something else: no rule matches and the scan is rejected there. *)
Theorem X6_digits_glued_to_a_word_are_rejected :
  forall d c rest,
    d <> "" ->
    all_chars is_digit d = true ->
    is_word c = true ->
    is_digit c = false ->
    get_tokens (d ++ String c rest)
    = Raise (RuntimeError ("Unexpected token at: " ++ d ++ String c rest)).
Proof.
  intros d c rest Hne Hd Hc Hcd.
  apply (get_tokens_raises_at 0); [reflexivity| |].
  - destruct d; [congruence|discriminate].
  - now apply no_rule_matches_digits_then_word.
Qed.

Lemma X6_digits_glued_to_a_word_are_rejected_witness :
  "12" <> "" /\ all_chars is_digit "12" = true /\
  is_word "a" = true /\ is_digit "a" = false /\
  get_tokens "12ab end" = Raise (RuntimeError "Unexpected token at: 12ab end").
Proof.
  repeat (split; [first [reflexivity|discriminate]|]).
  apply (X6_digits_glued_to_a_word_are_rejected "12" "a" "b end");
    first [reflexivity|discriminate].
Defined.

Lemma all_letters_word_after v :
  all_chars is_letter v = true -> word_after v = false -> v = "".
Proof.
  destruct v as [|c v]; [reflexivity|]. simpl. intros H Hw.
  apply andb_prop in H as [Hc _]. apply letter_is_word in Hc. congruence.
Qed.

Lemma run_rule_match cls v :
  (forall c, cls c = true -> is_word c = true) ->
  v <> "" -> all_chars cls v = true ->
  re_match [Boundary; Plus cls; Boundary] v = Some (0, String.length v).
Proof.
  intros Hw Hne Hv. rewrite run_rule_unfold.
  pose proof (match_plus_run cls (match_atoms [Boundary]) v "" Hw
                ltac:(reflexivity) Hne Hv eq_refl) as Hrun.
  rewrite append_nil_r in Hrun. rewrite Hrun.
  destruct v as [|c v]; [congruence|]. simpl in Hv.
  apply andb_prop in Hv as [Hc _]. unfold at_boundary. simpl.
  now rewrite (Hw _ Hc).
Qed.

Lemma first_match_word_rules v rest :
  word_after rest = false ->
  first_match TOKEN_TYPES (v ++ rest)
  = match first_match (firstn 4 TOKEN_TYPES) v with
    | Some m => Some m
    | None => first_match (skipn 4 TOKEN_TYPES) (v ++ rest)
    end.
Proof.
  intros Hr.
  change TOKEN_TYPES with (firstn 4 TOKEN_TYPES ++ skipn 4 TOKEN_TYPES)%list at 1.
  rewrite first_match_app.
  rewrite (first_match_ext _ (v ++ rest) v); [reflexivity|].
  intros ty p Hin. eapply word_rules_trunc; eassumption.
Qed.

Lemma get_one_token_letters v rest :
  v <> "" ->
  all_chars is_letter v = true ->
  v <> "def" ->
  prefix "end" v = false ->
  word_after rest = false ->
  get_one_token (v ++ rest) = Return (tk "_identifier" v, rest).
Proof.
  intros Hne Hv Hdef Hend Hr.
  rewrite get_one_token_first_match, (first_match_word_rules _ _ Hr).
  cbn [firstn TOKEN_TYPES first_match].
  assert (re_match [Boundary; Lit "d"; Lit "e"; Lit "f"; Boundary] v = None) as ->.
  { destruct (re_match _ v) as [[st en]|] eqn:E; [exfalso|reflexivity].
    apply re_match_span in E as [_ E].
    apply def_rule_spec in E as (r & -> & _ & Hw).
    simpl in Hv. apply all_letters_word_after in Hw; [|exact Hv].
    subst r. now apply Hdef. }
  assert (re_match [Boundary; Lit "e"; Lit "n"; Lit "d"] v = None) as ->.
  { destruct (re_match _ v) as [[st en]|] eqn:E; [exfalso|reflexivity].
    apply re_match_span in E as [_ E].
    apply end_rule_spec in E as (r & -> & _).
    destruct r; vm_compute in Hend; discriminate Hend. }
  rewrite (run_rule_match is_letter v letter_is_word Hne Hv).
  unfold slice, slice_from. simpl drop at 1. rewrite Nat.sub_0_r.
  now rewrite take_append, drop_append.
Qed.

(** X7.  A non-empty run of ASCII letters that is not the word [def], does
    not start with [end], and is followed by the end of the text or by a
    character that is not a word character, is scanned as one identifier
    token; the cursor stays right behind it.  So [define] and [friend] are
    identifiers. *)
Theorem X7_a_run_of_letters_is_an_identifier :
  forall v rest,
    v <> "" ->
    all_chars is_letter v = true ->
    v <> "def" ->
    prefix "end" v = false ->
    word_after rest = false ->
    get_one_token (v ++ rest) = Return (tk "_identifier" v, rest).
Proof. exact get_one_token_letters. Qed.

Lemma X7_a_run_of_letters_is_an_identifier_witness :
  "define" <> "" /\ all_chars is_letter "define" = true /\
  "define" <> "def" /\ prefix "end" "define" = false /\
  word_after "(x)" = false /\
  get_one_token "define(x)" = Return (tk "_identifier" "define", "(x)").
Proof.
  repeat (split; [first [reflexivity|discriminate]|]).
  apply (X7_a_run_of_letters_is_an_identifier "define" "(x)");
    first [reflexivity|discriminate].
Defined.

Lemma get_one_token_digits v rest :
  v <> "" ->
  all_chars is_digit v = true ->
  word_after rest = false ->
  get_one_token (v ++ rest) = Return (tk "_integer" v, rest).
Proof.
  intros Hne Hv Hr.
  rewrite get_one_token_first_match, (first_match_word_rules _ _ Hr).
  assert (first_match (firstn 4 TOKEN_TYPES) v
          = Some ("_integer", 0, String.length v)) as ->.
  { pose proof (run_rule_match is_digit v digit_is_word Hne Hv) as Hrun.
    destruct v as [|x v']; [congruence|]. simpl in Hv.
    apply andb_prop in Hv as [Hx _].
    assert (forall y, is_digit y = false -> Ascii.eqb x y = false) as Hxy.
    { intros y Hy. destruct (Ascii.eqb_spec x y); congruence. }
    cbn [firstn TOKEN_TYPES first_match].
    rewrite !keyword_rule_mismatch by (apply Hxy; reflexivity).
    assert (re_match [Boundary; Plus is_letter; Boundary] (String x v') = None)
      as ->.
    { rewrite run_rule_unfold. cbn [match_plus].
      rewrite (digit_not_letter _ Hx).
      now destruct (at_boundary None (String x v')). }
    now rewrite Hrun. }
  unfold slice, slice_from. simpl drop at 1. rewrite Nat.sub_0_r.
  now rewrite take_append, drop_append.
Qed.

(** X8.  A non-empty run of decimal digits followed by the end of the text
    or by a character that is not a word character is scanned as one
    integer token, leading zeros included. *)
Theorem X8_a_run_of_digits_is_an_integer :
  forall v rest,
    v <> "" ->
    all_chars is_digit v = true ->
    word_after rest = false ->
    get_one_token (v ++ rest) = Return (tk "_integer" v, rest).
Proof. exact get_one_token_digits. Qed.

Lemma X8_a_run_of_digits_is_an_integer_witness :
  "007" <> "" /\ all_chars is_digit "007" = true /\
  word_after ", x)" = false /\
  get_one_token "007, x)" = Return (tk "_integer" "007", ", x)").
Proof.
  repeat (split; [first [reflexivity|discriminate]|]).
  apply (X8_a_run_of_digits_is_an_integer "007" ", x)");
    first [reflexivity|discriminate].
Defined.

(** * Further properties of the parser *)

Section ParserSound.

Variable int : string -> exn + Z.

Local Open Scope list_scope.

Lemma parse_call_args_loop_sound (pe : M Node) :
  (forall ts n rest,
     pe ts = Return (n, rest) ->
     exists pre, ts = pre ++ rest /\ Grammar.expr int pre n) ->
  forall rounds acc ts args rest,
    parse_call_args_loop pe rounds acc ts = Return (args, rest) ->
    exists pre es,
      ts = pre ++ rest /\ args = acc ++ es /\ Grammar.more_args int pre es.
Proof.
  intros Hpe. induction rounds as [|rounds IH]; intros acc ts args rest H;
    [discriminate|].
  rewrite parse_call_args_loop_S in H. psteps H.
  - match goal with
    | He : pe _ = Return _ |- _ => apply Hpe in He as (pre1 & -> & He)
    end.
    apply IH in H as (pre2 & es & -> & -> & Hes).
    do 2 eexists. split; [|split].
    3:{ eapply Grammar.more_args_next; eassumption. }
    + simpl. now rewrite <- app_assoc.
    + now rewrite <- app_assoc.
  - exists [], []. rewrite app_nil_r. repeat split. apply Grammar.more_args_done.
Qed.

Lemma parse_sound_mut room :
  (forall ts n rest,
     parse_expr int room ts = Return (n, rest) ->
     exists pre, ts = pre ++ rest /\ Grammar.expr int pre n) /\
  (forall ts n rest,
     parse_call int room ts = Return (n, rest) ->
     exists pre, ts = pre ++ rest /\ Grammar.expr int pre n) /\
  (forall ts args rest,
     parse_call_args int room ts = Return (args, rest) ->
     exists lp pre rp,
       ts = lp :: pre ++ rp :: rest /\ type lp = "_oparen" /\
       type rp = "_cparen" /\ Grammar.arg_list int pre args).
Proof.
  induction room as [|room (IHe & IHc & IHa)]; repeat split.
  all: intros ts ? rest H;
    first [ rewrite parse_expr_eq in H | rewrite parse_call_eq in H
          | rewrite parse_call_args_eq in H ];
    psteps H; try (unfold parse_variable_ref in H; psteps H).
  all: repeat
         match goal with
         | Hc : parse_call _ _ _ = Return _ |- _ => now apply IHc
         | Ha : parse_call_args _ _ _ = Return _ |- _ =>
             apply IHa in Ha as (lp & pre & rp & -> & Hlp & Hrp & Hargs)
         | He : parse_expr _ _ _ = Return _ |- _ =>
             apply IHe in He as (pre1 & -> & He)
         | Hl : parse_call_args_loop _ _ _ _ = Return _ |- _ =>
             apply (parse_call_args_loop_sound _ IHe) in Hl
               as (pre2 & es & -> & -> & Hes)
         end.
  all: try (eexists; split;
            [|first [ eapply Grammar.expr_integer; eassumption
                    | eapply Grammar.expr_variable; eassumption
                    | eapply Grammar.expr_call; eassumption ]];
            simpl; rewrite <- ?app_assoc; reflexivity).
  all: do 3 eexists; (split; [|split; [eassumption|split; [eassumption|]]]);
    [|first [ apply Grammar.arg_list_empty
            | eapply Grammar.arg_list_some; eassumption ]];
    simpl; rewrite <- ?app_assoc; reflexivity.
Qed.

Lemma parse_args_loop_sound rounds :
  forall acc ts params rest,
    parse_args_loop rounds acc ts = Return (params, rest) ->
    exists pre ps,
      ts = pre ++ rest /\ params = acc ++ ps /\ Grammar.more_params pre ps.
Proof.
  induction rounds as [|rounds IH]; intros acc ts params rest H; [discriminate|].
  rewrite parse_args_loop_S in H. psteps H.
  - apply IH in H as (pre & ps & -> & -> & Hps).
    do 2 eexists. split; [|split].
    3:{ eapply Grammar.more_params_next; eassumption. }
    + reflexivity.
    + now rewrite <- app_assoc.
  - exists [], []. rewrite app_nil_r. repeat split. apply Grammar.more_params_done.
Qed.

Lemma parse_args_sound ts params rest :
  parse_args ts = Return (params, rest) ->
  exists pre, ts = pre ++ rest /\ Grammar.param_list pre params.
Proof.
  intros H. unfold parse_args in H. psteps H.
  - match goal with
    | Hl : parse_args_loop _ _ _ = Return _ |- _ =>
        apply parse_args_loop_sound in Hl as (pre & ps & -> & -> & Hps)
    end.
    eexists. split. 2:{ eapply Grammar.param_list_some; eassumption. }
    simpl. now rewrite <- app_assoc.
  - eexists. split. 2:{ eapply Grammar.param_list_empty; eassumption. }
    reflexivity.
Qed.

Lemma parse_def_sound room tokens node rest :
  parse_def int room tokens = Return (node, rest) ->
  exists pre, tokens = pre ++ rest /\ Grammar.definition int pre node.
Proof.
  unfold parse_def. intros H. psteps H.
  match goal with
  | Ha : parse_args _ = Return _ |- _ =>
      apply parse_args_sound in Ha as (ps & -> & Hps)
  end.
  match goal with
  | He : parse_expr _ ?r _ = Return _ |- _ =>
      apply (proj1 (parse_sound_mut r)) in He as (body_ts & -> & Hbody)
  end.
  eexists. split. 2:{ eapply Grammar.definition_intro; eassumption. }
  simpl. now rewrite <- !app_assoc.
Qed.

Lemma parse_run_sound tokens node rest :
  parse_run int tokens = Return (node, rest) ->
  exists pre, tokens = pre ++ rest /\ Grammar.definition int pre node.
Proof. apply parse_def_sound. Qed.

End ParserSound.

(** ** The exceptions of the parser *)

Section ParserErrors.

Variable int : string -> exn + Z.

Lemma parse_call_args_loop_raise (pe : M Node) :
  (forall ts e, pe ts = Raise e -> parser_error int e) ->
  forall rounds acc ts e,
    parse_call_args_loop pe rounds acc ts = Raise e -> parser_error int e.
Proof.
  intros Hpe. induction rounds as [|rounds IH]; intros acc ts e H;
    [discriminate|].
  rewrite parse_call_args_loop_S in H. praise int H; eauto.
Qed.

Lemma parse_raise_mut room :
  (forall ts e, parse_expr int room ts = Raise e -> parser_error int e) /\
  (forall ts e, parse_call int room ts = Raise e -> parser_error int e) /\
  (forall ts e, parse_call_args int room ts = Raise e -> parser_error int e).
Proof.
  induction room as [|room (IHe & IHc & IHa)]; repeat split; intros;
    match goal with
    | H : _ = Raise _ |- _ =>
        first [ rewrite parse_expr_eq in H | rewrite parse_call_eq in H
              | rewrite parse_call_args_eq in H ];
        praise int H; try (unfold parse_variable_ref in H; praise int H);
        eauto using parse_call_args_loop_raise
    end.
Qed.

Lemma parse_args_loop_raise rounds :
  forall acc ts e,
    parse_args_loop rounds acc ts = Raise e -> parser_error int e.
Proof.
  induction rounds as [|rounds IH]; intros acc ts e H; [discriminate|].
  rewrite parse_args_loop_S in H. praise int H; eauto.
Qed.

Lemma parse_def_raise room tokens e :
  parse_def int room tokens = Raise e -> parser_error int e.
Proof.
  unfold parse_def. intros H. praise int H; try assumption.
  - unfold parse_args in H. praise int H; try assumption.
    eapply parse_args_loop_raise; eassumption.
  - match goal with
    | He : parse_expr _ ?r _ = Raise _ |- _ =>
        eapply (proj1 (parse_raise_mut r)); eassumption
    end.
Qed.

Lemma parse_run_raise tokens e :
  parse_run int tokens = Raise e -> parser_error int e.
Proof. apply parse_def_raise. Qed.

End ParserErrors.

(** ** What the parser accepts and how it fails *)

Lemma expr_length int ts n : Grammar.expr int ts n -> 1 <= List.length ts.
Proof. destruct 1; simpl; lia. Qed.

Lemma param_list_length ts ps : Grammar.param_list ts ps -> 2 <= List.length ts.
Proof. destruct 1; simpl; lia. Qed.

Lemma definition_length int ts node :
  Grammar.definition int ts node -> 6 <= List.length ts.
Proof.
  intros [d name ps params body_ts body e _ _ Hps Hbody _].
  apply param_list_length in Hps. apply expr_length in Hbody.
  simpl. rewrite !length_app. simpl. lia.
Qed.

(** X9.  Whenever [parse] returns, the tokens it consumed are a definition
    derived by the grammar, the returned tree is the tree of that
    derivation, and the tokens left in the deque are exactly the ones
    behind it: the parser accepts nothing outside the grammar. *)
Theorem X9_parse_accepts_only_definitions :
  forall int tokens node rest,
    parse_run int tokens = Return (node, rest) ->
    exists consumed,
      tokens = (consumed ++ rest)%list /\
      Grammar.definition int consumed node.
Proof. intros int tokens node rest. apply parse_run_sound. Qed.

Lemma X9_parse_accepts_only_definitions_witness :
  parse_run int_of_digits
    [tk "_def" "def"; tk "_identifier" "f"; tk "_oparen" "(";
     tk "_identifier" "x"; tk "_cparen" ")"; tk "_identifier" "g";
     tk "_oparen" "("; tk "_identifier" "x"; tk "_comma" ",";
     tk "_integer" "1"; tk "_cparen" ")"; tk "_end" "end"; tk "_comma" ","]
  = Return (DefNode "f" (CallNode "g" [VarRefNode "x"; IntegerNode 1]) ["x"],
            [tk "_comma" ","]) /\
  exists consumed,
    [tk "_def" "def"; tk "_identifier" "f"; tk "_oparen" "(";
     tk "_identifier" "x"; tk "_cparen" ")"; tk "_identifier" "g";
     tk "_oparen" "("; tk "_identifier" "x"; tk "_comma" ",";
     tk "_integer" "1"; tk "_cparen" ")"; tk "_end" "end"; tk "_comma" ","]
    = (consumed ++ [tk "_comma" ","])%list /\
    Grammar.definition int_of_digits consumed
      (DefNode "f" (CallNode "g" [VarRefNode "x"; IntegerNode 1]) ["x"]).
Proof.
  split; [reflexivity|].
  exact (X9_parse_accepts_only_definitions int_of_digits
           [tk "_def" "def"; tk "_identifier" "f"; tk "_oparen" "(";
            tk "_identifier" "x"; tk "_cparen" ")"; tk "_identifier" "g";
            tk "_oparen" "("; tk "_identifier" "x"; tk "_comma" ",";
            tk "_integer" "1"; tk "_cparen" ")"; tk "_end" "end";
            tk "_comma" ","]
           (DefNode "f" (CallNode "g" [VarRefNode "x"; IntegerNode 1]) ["x"])
           [tk "_comma" ","] eq_refl).
Defined.

Lemma parse_run_cases int tokens :
  (exists node rest, parse_run int tokens = Return (node, rest)) \/
  (exists e, parse_run int tokens = Raise e /\ parser_error int e).
Proof.
  pose proof (parse_run_total int tokens) as Htot.
  destruct (parse_run int tokens) as [[node rest]|e|] eqn:E.
  - left. eauto.
  - right. exists e. split; [reflexivity|]. eapply parse_run_raise; eassumption.
  - congruence.
Qed.

(** X10.  [parse] ends on every token sequence, and in one of two ways
    only: it returns a tree, or it raises the interpreter's
    [RecursionError], one of the deque's two [IndexError]s, the
    [RuntimeError] of [consume] naming an expected and an actual kind, or
    an exception that [int] raised. *)
Theorem X10_parse_returns_or_raises_a_known_error :
  forall int tokens,
    (exists node rest, parse_run int tokens = Return (node, rest)) \/
    (exists e, parse_run int tokens = Raise e /\ parser_error int e).
Proof. exact parse_run_cases. Qed.

Lemma short_sequences_rejected int tokens :
  List.length tokens < 6 ->
  exists e, parse int tokens = Raise e /\ parser_error int e.
Proof.
  intros Hlen. unfold parse.
  destruct (parse_run_cases int tokens)
    as [(node & rest & H)|(e & H & He)].
  - exfalso. apply parse_run_sound in H as (pre & -> & Hdef).
    apply definition_length in Hdef. rewrite length_app in Hlen. lia.
  - exists e. now rewrite H.
Qed.

(** X11.  A sequence of fewer than six tokens is never accepted, and six
    tokens can be: [def f ( ) x end] is parsed to the definition of [f]
    with no parameter and the body [x]. *)
Theorem X11_fewer_than_six_tokens_are_rejected :
  forall int,
    (forall tokens,
       List.length tokens < 6 ->
       exists e, parse int tokens = Raise e /\ parser_error int e) /\
    parse int [tk "_def" "def"; tk "_identifier" "f"; tk "_oparen" "(";
               tk "_cparen" ")"; tk "_identifier" "x"; tk "_end" "end"]
    = Return (DefNode "f" (VarRefNode "x") []).
Proof.
  intros int. split; [apply short_sequences_rejected|reflexivity].
Qed.

Lemma X11_fewer_than_six_tokens_are_rejected_witness :
  List.length [tk "_def" "def"; tk "_identifier" "f"; tk "_oparen" "(";
               tk "_cparen" ")"; tk "_end" "end"] < 6 /\
  exists e,
    parse int_of_digits
      [tk "_def" "def"; tk "_identifier" "f"; tk "_oparen" "(";
       tk "_cparen" ")"; tk "_end" "end"] = Raise e /\
    parser_error int_of_digits e.
Proof.
  split; [simpl; lia|].
  apply (proj1 (X11_fewer_than_six_tokens_are_rejected int_of_digits)).
  simpl. lia.
Defined.

(** X12.  When the header and the body of a definition are well formed,
    the body is nested no deeper than the recursion limit leaves room for,
    and the token behind the body is neither [end] nor an opening
    parenthesis, [parse] raises the [RuntimeError] that expects [_end] and
    names the kind it found. *)
Theorem X12_a_body_not_closed_by_end :
  forall int d name ps params body_ts body t rest,
    type d = "_def" ->
    type name = "_identifier" ->
    Grammar.param_list ps params ->
    Grammar.expr int body_ts body ->
    room_needed body < recursion_budget ->
    type t <> "_end" ->
    type t <> "_oparen" ->
    parse int (d :: name :: ps ++ body_ts ++ t :: rest)%list
    = Raise (RuntimeError ("Expected token_type: _end, got: " ++ type t)).
Proof.
  intros int d name ps params body_ts body t rest
    Hd Hname Hps Hbody Hroom Hend Hop.
  unfold parse, parse_run, parse_def. revert Hroom.
  generalize recursion_budget. intros [|room] Hroom; [lia|].
  pstep. pstep.
  rewrite bind_eq, (param_list_complete _ _ Hps). cbv beta iota.
  rewrite bind_eq.
  destruct (expr_complete_mut int) as [Hexpr _].
  rewrite (Hexpr _ _ Hbody); [|lia|exact Hop].
  cbv beta iota. pstep. reflexivity.
Qed.

Lemma X12_a_body_not_closed_by_end_witness :
  parse int_of_digits
    [tk "_def" "def"; tk "_identifier" "f"; tk "_oparen" "(";
     tk "_cparen" ")"; tk "_integer" "1"; tk "_integer" "2"; tk "_end" "end"]
  = Raise (RuntimeError "Expected token_type: _end, got: _integer").
Proof.
  apply (X12_a_body_not_closed_by_end int_of_digits
           (tk "_def" "def") (tk "_identifier" "f")
           [tk "_oparen" "("; tk "_cparen" ")"] []
           [tk "_integer" "1"] (IntegerNode 1) (tk "_integer" "2")
           [tk "_end" "end"]);
    try reflexivity; try discriminate.
  - apply Grammar.param_list_empty; reflexivity.
  - apply Grammar.expr_integer; reflexivity.
  - vm_compute. lia.
Defined.

(** ** From a derivation to its text and back *)

Lemma scannable_lexeme_ok tok : scannable tok = true -> lexeme_ok tok.
Proof.
  destruct tok as [ty v]. unfold scannable, token_shape, lexeme_ok. simpl.
  intros H. apply andb_prop in H as [Hshape Hid].
  repeat
    match type of Hshape with
    | (if (ty =? ?k)%string then _ else _) = true =>
        destruct (String.eqb_spec ty k) as [->|?]
    end; try discriminate Hshape; simpl in Hid.
  - apply String.eqb_eq in Hshape as ->. split; reflexivity.
  - apply String.eqb_eq in Hshape as ->. split; reflexivity.
  - apply andb_prop in Hshape as [Hne Hv]. apply andb_prop in Hid as [Hdef Hend].
    apply negb_true_iff in Hne, Hdef, Hend.
    apply String.eqb_neq in Hne, Hdef. split.
    + pose proof (get_one_token_letters v "" Hne Hv Hdef Hend eq_refl) as Htok.
      now rewrite append_nil_r in Htok.
    + eapply all_chars_weaken; [|exact Hv]. intros c Hc.
      now rewrite (word_not_space _ (letter_is_word _ Hc)).
  - apply andb_prop in Hshape as [Hne Hv]. apply negb_true_iff in Hne.
    apply String.eqb_neq in Hne. split.
    + pose proof (get_one_token_digits v "" Hne Hv eq_refl) as Htok.
      now rewrite append_nil_r in Htok.
    + eapply all_chars_weaken; [|exact Hv]. intros c Hc.
      now rewrite (word_not_space _ (digit_is_word _ Hc)).
  - apply String.eqb_eq in Hshape as ->. split; reflexivity.
  - apply String.eqb_eq in Hshape as ->. split; reflexivity.
  - apply String.eqb_eq in Hshape as ->. split; reflexivity.
Qed.

Lemma scannable_all tokens :
  forallb scannable tokens = true -> Forall lexeme_ok tokens.
Proof.
  induction tokens as [|t ts IH]; simpl; intros H; constructor;
    apply andb_prop in H as [Ht Hts]; auto using scannable_lexeme_ok.
Qed.

(** X13.  The two stages together: when a token sequence is a definition
    derived by the grammar, nested no deeper than the recursion limit
    leaves room for, and each of its tokens is one the scanner produces
    from its own lexeme, the text made of the lexemes separated by single
    spaces is scanned and parsed to the tree of the derivation. *)
Theorem X13_the_text_of_a_definition_is_parsed_to_its_tree :
  forall int tokens node,
    Grammar.definition int tokens node ->
    room_needed node <= recursion_budget ->
    forallb scannable tokens = true ->
    front_end int (join_lexemes tokens) = Return node.
Proof.
  intros int tokens node Hdef Hroom Hscan. unfold front_end.
  rewrite (get_tokens_join _ (scannable_all _ Hscan)).
  pose proof (definition_complete int _ _ _ [] Hdef Hroom) as Hrun.
  rewrite app_nil_r in Hrun. unfold parse, parse_run. now rewrite Hrun.
Qed.

Lemma X13_the_text_of_a_definition_is_parsed_to_its_tree_witness :
  front_end int_of_digits "def twice ( x ) add ( x , x ) end"
  = Return (DefNode "twice" (CallNode "add" [VarRefNode "x"; VarRefNode "x"])
              ["x"]).
Proof.
  apply (X13_the_text_of_a_definition_is_parsed_to_its_tree int_of_digits
           [tk "_def" "def"; tk "_identifier" "twice"; tk "_oparen" "(";
            tk "_identifier" "x"; tk "_cparen" ")"; tk "_identifier" "add";
            tk "_oparen" "("; tk "_identifier" "x"; tk "_comma" ",";
            tk "_identifier" "x"; tk "_cparen" ")"; tk "_end" "end"]);
    [|vm_compute; lia|reflexivity].
  apply (Grammar.definition_intro int_of_digits
           (tk "_def" "def") (tk "_identifier" "twice")
           [tk "_oparen" "("; tk "_identifier" "x"; tk "_cparen" ")"] ["x"]
           [tk "_identifier" "add"; tk "_oparen" "("; tk "_identifier" "x";
            tk "_comma" ","; tk "_identifier" "x"; tk "_cparen" ")"]
           (CallNode "add" [VarRefNode "x"; VarRefNode "x"])
           (tk "_end" "end")); try reflexivity.
  - apply (Grammar.param_list_some (tk "_oparen" "(") (tk "_identifier" "x")
             [] (tk "_cparen" ")") []); try reflexivity.
    apply Grammar.more_params_done.
  - apply (Grammar.expr_call int_of_digits (tk "_identifier" "add")
             (tk "_oparen" "(")
             [tk "_identifier" "x"; tk "_comma" ","; tk "_identifier" "x"]
             (tk "_cparen" ")") [VarRefNode "x"; VarRefNode "x"]);
      try reflexivity.
    apply (Grammar.arg_list_some int_of_digits [tk "_identifier" "x"]
             (VarRefNode "x") [tk "_comma" ","; tk "_identifier" "x"]
             [VarRefNode "x"]).
    + apply (Grammar.expr_variable int_of_digits (tk "_identifier" "x")).
      reflexivity.
    + apply (Grammar.more_args_next int_of_digits (tk "_comma" ",")
               [tk "_identifier" "x"] (VarRefNode "x") [] []);
        try reflexivity.
      * apply (Grammar.expr_variable int_of_digits (tk "_identifier" "x")).
        reflexivity.
      * apply Grammar.more_args_done.
Defined.
